(** * The to-do list API and its message socket (src/api/todo-api.ts)

    A shallow embedding of the two classes of the file, [TodoApi] and
    [FakeSocket], and the properties of their operations.

    What is modelled, and how:
    - Every method of [TodoApi] returns [new Promise(executor)] whose executor
      only arms a timer. The body of the timer callback runs to completion once
      the timer fires (JavaScript is single threaded), so a call is modelled by
      that body: a computation over the world that may settle the promise.
      A promise settles once: [resolve] and [reject] after the first settlement
      do nothing, and neither of them stops the callback.
    - [Math.random()] is an input of the call: the draw [rnd] is a rational of
      [0, 1) (every double is one, and [<] on doubles is exact). The delay of
      the timer is drawn too, but it only decides when the callback runs.
    - Index arguments are integer valued numbers ([Z]).
    - A [SocketClient] is an object, known by its identity; what its
      [handleMessage] does is outside the file (its declared result type,
      [never], is erased at run time). A delivery is recorded in the world
      ([received]), and the handler then returns or throws: which of the two
      is a function ([throws]) of the client, of the messages it was handed
      before and of the message. [forEach] has no [try] around the handlers,
      so a throw ends the dispatch: inside a method it reaches the [catch] of
      the callback, or leaves the callback of [createList], which has none.
      Handlers are taken to terminate and not to call back into the socket
      or the API.
    - Arrays of items are JavaScript arrays: they can have holes, hold
      [undefined], carry properties that are no array index, and cannot grow
      beyond 2^32 - 1 elements. [todos] is only ever changed by [push] and by
      [splice(i, 1)], so it is dense and is a list; the stray property that a
      [push] failing at the length limit leaves behind is not kept for it.
    - Values have no identity; the part of the file whose property is about
      object identity ([getTodoLists] returning copies) is modelled a second
      time over a heap of objects, in [Module Heap].
    - Of [RandomActionExecutor] the state, [launch] and [stop] are modelled;
      its timer loop and its actions are not. *)

From Stdlib Require Import QArith.
From stdpp Require Import base option list strings gmap.
Close Scope Q_scope.
Local Open Scope Z_scope.

(** ** Data model *)

Record Todo := mkTodo { description : string; done : bool }.

(** What a position of an items array holds at run time: a [Todo] object, or,
    once a hole has been moved by [moveTodo], the value [undefined]; the spread
    [{...undefined}] of [getTodoLists] is the object [{}]. *)
Inductive jsval :=
| VUndefined
| VEmpty
| VTodo (t : Todo).

(** A JavaScript array: its positions [0 .. length-1], each one an element or a
    hole ([None]), and its own properties that are no array index. *)
Record jsarray (A : Type) := JsArray {
  cells : list (option A);
  props : gmap Z A
}.
Arguments JsArray {A} cells props.
Arguments cells {A} _.
Arguments props {A} _.

Record TodoList := mkTodoList { items : jsarray jsval; name : string }.

Record ApiResponseError := mkError { code : Z; error_description : string }.

(** How the promise of a call settles: [resolve({response})] or
    [reject({error})]. *)
Inductive Settlement (T : Type) :=
| Resolved (response : T)
| Rejected (error : ApiResponseError).
Arguments Resolved {T} response.
Arguments Rejected {T} error.

Inductive RawMessage :=
| CreateListMessage (message : TodoList)
| DeleteListMessage (index : Z)
| AddTodoMessage (listIndex : Z) (item : Todo)
| RemoveTodoMessage (listIndex itemIndex : Z)
| MoveTodoMessage (listIndex sourceIndex destIndex : Z)
| EditTodoMessage (listIndex itemIndex : Z) (newValue : Todo).

Record SocketMessage := mkSocketMessage { sequenceId : Z; raw : RawMessage }.

(** A client object, by identity ([!==] compares references). *)
Definition SocketClient := nat.

(** ** JavaScript arrays *)

Section JsArrays.
Context {A : Type}.

(** An array index is an integer of [0, 2^32 - 2]; any other key names an
    ordinary property. *)
Definition is_array_index (i : Z) : bool := (0 <=? i) && (i <? 2 ^ 32 - 1).

Definition arr_empty : jsarray A := JsArray [] ∅.

Definition arr_length (a : jsarray A) : Z := Z.of_nat (length (cells a)).

(** [a[i] = v]: replaces within the length; beyond it the array grows and
    the positions in between are holes; no array index: a property. *)
Definition arr_set (a : jsarray A) (i : Z) (v : A) : jsarray A :=
  if is_array_index i then
    if i <? arr_length a
    then JsArray (<[Z.to_nat i := Some v]> (cells a)) (props a)
    else JsArray (cells a ++ replicate (Z.to_nat (i - arr_length a)) None ++ [Some v])
                 (props a)
  else JsArray (cells a) (<[i := v]> (props a)).

(** [a.push(v)]: [Set(a, length, v)] then [Set(a, "length", length + 1)];
    at length 2^32 - 1 the first sets a property (2^32 - 1 is no array
    index) and the second throws a RangeError. The result is the array
    after the call and the new length, or [None] for the RangeError. *)
Definition arr_push (a : jsarray A) (v : A) : jsarray A * option Z :=
  if arr_length a <? 2 ^ 32 - 1
  then (JsArray (cells a ++ [Some v]) (props a), Some (arr_length a + 1))
  else (JsArray (cells a) (<[arr_length a := v]> (props a)), None).

(** [splice(start, deleteCount, ...ins)] on the positions of an array: the
    start is relative to the end when negative and clamped to [0, len], the
    count is clamped to what is left. Returns the removed positions and the
    positions after the call. *)
Definition actual_start (len start : Z) : Z :=
  if start <? 0 then Z.max (len + start) 0 else Z.min start len.

Definition actual_delete_count (len astart deleteCount : Z) : Z :=
  Z.min (Z.max deleteCount 0) (len - astart).

Definition splice {X : Type} (l : list X) (start deleteCount : Z) (ins : list X)
  : list X * list X :=
  let len := Z.of_nat (length l) in
  let s := actual_start len start in
  let d := actual_delete_count len s deleteCount in
  (take (Z.to_nat d) (drop (Z.to_nat s) l),
   take (Z.to_nat s) l ++ ins ++ drop (Z.to_nat s + Z.to_nat d) l).

(** On an array the removed positions come back as a new array (holes stay
    holes, no properties). No method of the file leaves an array longer than
    it found it by way of [splice], so the length limit is not met here. *)
Definition arr_splice (a : jsarray A) (start deleteCount : Z) (ins : list A)
  : jsarray A * jsarray A :=
  let '(removed, rest) := splice (cells a) start deleteCount (Some <$> ins) in
  (JsArray removed ∅, JsArray rest (props a)).
End JsArrays.

(** [...a] in an argument list or an array literal iterates the array: a hole
    is read as [undefined]. *)
Definition spread (a : jsarray jsval) : list jsval :=
  from_option id VUndefined <$> cells a.

(** [a.map(f)]: [f] is called on the elements only, holes stay holes, and the
    new array has no other property. *)
Definition arr_map {A B : Type} (f : A → B) (a : jsarray A) : jsarray B :=
  JsArray (fmap (M:=option) f <$> cells a) ∅.

(** [{...v}]: a new object with the own properties of [v]; none for
    [undefined]. *)
Definition copy_object (v : jsval) : jsval :=
  match v with
  | VUndefined => VEmpty
  | VEmpty => VEmpty
  | VTodo t => VTodo t
  end.

(** [todolist => ({name: todolist.name, items: todolist.items.map(todo =>
    ({...todo}))})] *)
Definition copy_todolist (todolist : TodoList) : TodoList :=
  mkTodoList (arr_map copy_object (items todolist)) (name todolist).

(** [l[i]] on a dense array: [undefined] ([None]) out of range. *)
Definition nth_Z {X : Type} (l : list X) (i : Z) : option X :=
  if i <? 0 then None else l !! Z.to_nat i.

(** ** The world: the two singletons of the file and what clients received *)

Record TodoApi := mkTodoApi { successRate : Q; todos : list TodoList }.

Record FakeSocket := mkFakeSocket { clients : list SocketClient; socket_sequenceId : Z }.

(** One call of [dispatchMessage], with the store as it was at that moment. *)
Record Dispatch := mkDispatch { dispatched : RawMessage; store_then : list TodoList }.

Record World := mkWorld {
  todoApi : TodoApi;
  fakeSocket : FakeSocket;
  received : list (SocketClient * SocketMessage);
  dispatches : list Dispatch;
  throws : SocketClient → list SocketMessage → SocketMessage → bool
}.

(** [new TodoApi()] and [new FakeSocket()]. *)
Definition new_TodoApi : TodoApi := mkTodoApi 1%Q [].
Definition new_FakeSocket : FakeSocket := mkFakeSocket [] 0.
(** The world at the start, for given handlers; [initial_world] has handlers
    that never throw. *)
Definition new_world (t : SocketClient → list SocketMessage → SocketMessage → bool) : World :=
  mkWorld new_TodoApi new_FakeSocket [] [] t.

Definition initial_world : World := new_world (λ _ _ _, false).

Definition set_todos (ts : list TodoList) (w : World) : World :=
  mkWorld (mkTodoApi (successRate (todoApi w)) ts) (fakeSocket w) (received w) (dispatches w)
          (throws w).

Definition set_socket (s : FakeSocket) (w : World) : World :=
  mkWorld (todoApi w) s (received w) (dispatches w) (throws w).

(** ** FakeSocket *)

Definition addListener (client : SocketClient) (w : World) : World :=
  set_socket (mkFakeSocket (clients (fakeSocket w) ++ [client])
                           (socket_sequenceId (fakeSocket w))) w.

Definition removeListener (client : SocketClient) (w : World) : World :=
  set_socket (mkFakeSocket
                (filter (λ currentClient, currentClient ≠ client) (clients (fakeSocket w)))
                (socket_sequenceId (fakeSocket w))) w.

(** What can be thrown: by the language, or by a handler ([Thrown]). *)
Inductive exn := TypeError | RangeError | Thrown.

(** What a client has been handed so far, oldest first. *)
Definition received_by (client : SocketClient) (w : World) : list SocketMessage :=
  snd <$> filter (λ d, d.1 = client) (received w).

(** [client.handleMessage(m)]: the client is handed the message, and its
    handler returns ([inr]) or throws ([inl]). *)
Definition handleMessage (client : SocketClient) (m : SocketMessage) (w : World)
  : (exn + unit) * World :=
  (if throws w client (received_by client w) m then inl Thrown else inr tt,
   mkWorld (todoApi w) (fakeSocket w) (received w ++ [(client, m)]) (dispatches w)
           (throws w)).

Definition log_dispatch (message : RawMessage) (w : World) : World :=
  mkWorld (todoApi w) (fakeSocket w) (received w)
          (dispatches w ++ [mkDispatch message (todos (todoApi w))]) (throws w).

(** [cs.forEach(f)]: there is no [try] around the calls, so the first throw
    ends the loop and leaves it. *)
Fixpoint forEach (f : SocketClient → World → (exn + unit) * World)
    (cs : list SocketClient) (w : World) : (exn + unit) * World :=
  match cs with
  | [] => (inr tt, w)
  | client :: cs =>
      match f client w with
      | (inl e, w') => (inl e, w')
      | (inr _, w') => forEach f cs w'
      end
  end.

(** [this.clients.forEach(client => client.handleMessage({sequenceId:
    this.sequenceId, ...message}))]; nothing else: the counter is read, never
    written. *)
Definition dispatchMessage (message : RawMessage) (w : World) : (exn + unit) * World :=
  forEach (λ client w,
             handleMessage client
               (mkSocketMessage (socket_sequenceId (fakeSocket w)) message) w)
          (clients (fakeSocket w))
          (log_dispatch message w).

(** The world a dispatch leaves, whether it returned, and how many clients
    it called. *)
Definition after_dispatch (message : RawMessage) (w : World) : World :=
  (dispatchMessage message w).2.

Definition returns (message : RawMessage) (w : World) : bool :=
  match (dispatchMessage message w).1 with
  | inr _ => true
  | inl _ => false
  end.

Definition handed (message : RawMessage) (w : World) : nat :=
  (length (received (after_dispatch message w)) - length (received w))%nat.

Arguments after_dispatch : simpl never.
Arguments returns : simpl never.
Arguments handed : simpl never.

(** No handler of a subscribed client ever throws. *)
Definition quiet (w : World) : Prop :=
  ∀ client, client ∈ clients (fakeSocket w) → ∀ before m, throws w client before m = false.

(** ** Calls: the body of a timer callback *)

(** The state a callback runs in: the world and the promise of the call
    ([None] while it is pending). *)
Record Call (T : Type) := mkCall { world : World; promise : option (Settlement T) }.
Arguments mkCall {T} world promise.
Arguments world {T} _.
Arguments promise {T} _.

(** A computation returns ([inr]) or throws ([inl]); the state it leaves
    behind is kept in both cases. *)
Definition M (T A : Type) : Type := Call T → (exn + A) * Call T.

Section Monad.
Context {T : Type}.

Definition ret {A : Type} (a : A) : M T A := λ c, (inr a, c).

Definition bind {A B : Type} (m : M T A) (k : A → M T B) : M T B :=
  λ c, match m c with
       | (inl e, c') => (inl e, c')
       | (inr a, c') => k a c'
       end.

Definition throw {A : Type} (e : exn) : M T A := λ c, (inl e, c).

(** [try { body } catch(e) { handler }] *)
Definition try_catch (body handler : M T unit) : M T unit :=
  λ c, match body c with
       | (inl _, c') => handler c'
       | (inr r, c') => (inr r, c')
       end.

Definition get_world : M T World := λ c, (inr (world c), c).

Definition modify_world (f : World → World) : M T unit :=
  λ c, (inr tt, mkCall (f (world c)) (promise c)).

Definition settle (s : Settlement T) : M T unit :=
  λ c, (inr tt, match promise c with
                | None => mkCall (world c) (Some s)
                | Some _ => c
                end).

Definition resolve (response : T) : M T unit := settle (Resolved response).
Definition reject (error : ApiResponseError) : M T unit := settle (Rejected error).
End Monad.

#[global] Instance M_ret {T : Type} : MRet (M T) := @ret T.
#[global] Instance M_bind {T : Type} : MBind (M T) := λ A B k m, bind m k.

(** [a || b] with [b] evaluated only when [a] is false. *)
Definition or_else {T : Type} (a b : M T bool) : M T bool :=
  x ← a; if x : bool then mret true else b.
Infix "|||" := or_else (at level 50, left associativity).

(** A call from the moment its timer fires: how its promise ends up ([None]:
    never settled) and the world it leaves. An exception that leaves the
    body is lost in the timer: the promise stays as it was. *)
Definition call {T : Type} (body : M T unit) (w : World) : option (Settlement T) * World :=
  let c := (body (mkCall w None)).2 in (promise c, world c).

(** ** TodoApi *)

(** [Math.random() < successRate] *)
Definition isSuccess (successRate rnd : Q) : bool := negb (Qle_bool successRate rnd).

Definition buildErrorResponse (code : Z) (description : string) : ApiResponseError :=
  mkError code description.

(** The two envelopes the file builds. *)
Definition internal_error : ApiResponseError := buildErrorResponse 500 "internal error".
Definition index_out_of_bound : ApiResponseError := buildErrorResponse 400 "index out of bound".

(** The list object [l] once its items array has become [a]. *)
Definition set_items (a : jsarray jsval) (l : TodoList) : TodoList := mkTodoList a (name l).

Section Store.
Context {T : Type}.

Definition this_successRate : M T Q := w ← get_world; mret (successRate (todoApi w)).

Definition this_todos : M T (list TodoList) := w ← get_world; mret (todos (todoApi w)).

Definition todos_length : M T Z := ts ← this_todos; mret (Z.of_nat (length ts)).

(** [this.todos.push(l)] *)
Definition todos_push (l : TodoList) : M T Z :=
  ts ← this_todos;
  if Z.of_nat (length ts) <? 2 ^ 32 - 1
  then modify_world (set_todos (ts ++ [l]));; mret (Z.of_nat (length ts) + 1)
  else throw RangeError.

(** [this.todos.splice(start, deleteCount)] *)
Definition todos_splice (start deleteCount : Z) : M T (list TodoList) :=
  ts ← this_todos;
  let '(removed, rest) := splice ts start deleteCount [] in
  modify_world (set_todos rest);; mret removed.

(** [this.todos[listIndex].items]: reading [items] of [undefined] throws
    a TypeError. *)
Definition items_at (listIndex : Z) : M T (jsarray jsval) :=
  ts ← this_todos;
  match nth_Z ts listIndex with
  | Some l => mret (items l)
  | None => throw TypeError
  end.

(** [this.todos[listIndex].items.op(...)]: a method that changes the items
    array of a list in place. *)
Definition on_items {R : Type} (listIndex : Z)
    (op : jsarray jsval → jsarray jsval * R) : M T R :=
  a ← items_at listIndex;
  ts ← this_todos;
  let '(a', r) := op a in
  modify_world (set_todos (alter (set_items a') (Z.to_nat listIndex) ts));;
  mret r.

Definition items_length (listIndex : Z) : M T Z :=
  a ← items_at listIndex; mret (arr_length a).

Definition items_push (listIndex : Z) (v : jsval) : M T Z :=
  r ← on_items listIndex (λ a, arr_push a v);
  match r with
  | Some len => mret len
  | None => throw RangeError
  end.

Definition items_splice (listIndex start deleteCount : Z) (ins : list jsval)
  : M T (jsarray jsval) :=
  on_items listIndex (λ a, let '(removed, a') := arr_splice a start deleteCount ins in
                           (a', removed)).

Definition items_set (listIndex i : Z) (v : jsval) : M T unit :=
  on_items listIndex (λ a, (arr_set a i v, tt)).

(** [fakeSocket.dispatchMessage(message)]: what a handler throws comes out of
    the call. *)
Definition fakeSocket_dispatchMessage (message : RawMessage) : M T unit :=
  λ c, let '(r, w') := dispatchMessage message (world c) in (r, mkCall w' (promise c)).
End Store.

Definition getTodoLists (rnd : Q) : M (list TodoList) unit :=
  rate ← this_successRate;
  if isSuccess rate rnd then
    ts ← this_todos;
    resolve (copy_todolist <$> ts)
  else
    reject (buildErrorResponse 500 "internal error").

Definition createList (rnd : Q) (name' : string) : M Z unit :=
  rate ← this_successRate;
  if isSuccess rate rnd then
    length ← todos_push (mkTodoList arr_empty name');
    len ← todos_length;
    ts ← this_todos;
    match nth_Z ts (len - 1) with
    | None => throw TypeError
    | Some last =>
        fakeSocket_dispatchMessage
          (CreateListMessage (mkTodoList (JsArray (Some <$> spread (items last)) ∅)
                                         (name last)));;
        resolve (length - 1)
    end
  else
    reject (buildErrorResponse 500 "internal error").

Definition deleteList (rnd : Q) (listIndex : Z) : M bool unit :=
  rate ← this_successRate;
  if isSuccess rate rnd then
    try_catch
      (bad ← mret (listIndex <? 0) ||| (len ← todos_length; mret (listIndex >=? len));
       (if bad : bool then reject (buildErrorResponse 400 "index out of bound")
        else mret tt);;
       todos_splice listIndex 1;;
       fakeSocket_dispatchMessage (DeleteListMessage listIndex);;
       resolve true)
      (reject (buildErrorResponse 500 "internal error"))
  else
    reject (buildErrorResponse 500 "internal error").

Definition addTodo (rnd : Q) (listIndex : Z) (item : Todo) : M bool unit :=
  rate ← this_successRate;
  if isSuccess rate rnd then
    try_catch
      (bad ← mret (listIndex <? 0) ||| (len ← todos_length; mret (listIndex >=? len));
       (if bad : bool then reject (buildErrorResponse 400 "index out of bound")
        else mret tt);;
       items_push listIndex (copy_object (VTodo item));;
       fakeSocket_dispatchMessage (AddTodoMessage listIndex item);;
       resolve true)
      (reject (buildErrorResponse 500 "internal error"))
  else
    reject (buildErrorResponse 500 "internal error").

Definition removeTodo (rnd : Q) (listIndex todoIndex : Z) : M bool unit :=
  rate ← this_successRate;
  if isSuccess rate rnd then
    try_catch
      (bad ← mret (listIndex <? 0) ||| (len ← todos_length; mret (listIndex >=? len))
             ||| mret (todoIndex <? 0)
             ||| (len ← items_length listIndex; mret (todoIndex >=? len));
       (if bad : bool then reject (buildErrorResponse 400 "index out of bound")
        else mret tt);;
       items_splice listIndex todoIndex 1 [];;
       fakeSocket_dispatchMessage (RemoveTodoMessage listIndex todoIndex);;
       resolve true)
      (reject (buildErrorResponse 500 "internal error"))
  else
    reject (buildErrorResponse 500 "internal error").

Definition moveTodo (rnd : Q) (listIndex sourceIndex destIndex : Z) : M bool unit :=
  rate ← this_successRate;
  if isSuccess rate rnd then
    try_catch
      (bad ← mret (listIndex <? 0) ||| (len ← todos_length; mret (listIndex >=? len))
             ||| mret (sourceIndex <? 0)
             ||| (len ← items_length listIndex; mret (sourceIndex >=? len));
       (if bad : bool then reject (buildErrorResponse 400 "index out of bound")
        else mret tt);;
       todo ← items_splice listIndex sourceIndex 1 [];
       let realDest := if destIndex <? sourceIndex then destIndex else destIndex - 1 in
       items_splice listIndex realDest 0 (spread todo);;
       fakeSocket_dispatchMessage (MoveTodoMessage listIndex sourceIndex destIndex);;
       resolve true)
      (reject (buildErrorResponse 500 "internal error"))
  else
    reject (buildErrorResponse 500 "internal error").

Definition editTodo (rnd : Q) (listIndex itemIndex : Z) (newValue : Todo) : M bool unit :=
  rate ← this_successRate;
  if isSuccess rate rnd then
    try_catch
      (bad ← mret (listIndex <? 0) ||| (len ← todos_length; mret (listIndex >=? len))
             ||| mret (itemIndex <? 0)
             ||| (len ← items_length listIndex; mret (itemIndex >=? len));
       (if bad : bool then reject (buildErrorResponse 400 "index out of bound")
        else mret tt);;
       items_set listIndex itemIndex (copy_object (VTodo newValue));;
       fakeSocket_dispatchMessage (EditTodoMessage listIndex itemIndex newValue);;
       resolve true)
      (reject (buildErrorResponse 500 "internal error"))
  else
    reject (buildErrorResponse 500 "internal error").

(** ** Requests: the seven methods under one type

    So that a property of every operation is one statement. [perform] runs
    the call and keeps how it was reported and the world it leaves. *)

Inductive Request :=
| GetTodoLists
| CreateList (name : string)
| DeleteList (listIndex : Z)
| AddTodo (listIndex : Z) (item : Todo)
| RemoveTodo (listIndex todoIndex : Z)
| MoveTodo (listIndex sourceIndex destIndex : Z)
| EditTodo (listIndex itemIndex : Z) (newValue : Todo).

Inductive Report :=
| Pending
| Success
| Failure (error : ApiResponseError).

Definition report {T : Type} (r : option (Settlement T) * World) : Report * World :=
  match r.1 with
  | None => (Pending, r.2)
  | Some (Resolved _) => (Success, r.2)
  | Some (Rejected e) => (Failure e, r.2)
  end.

Definition perform (rnd : Q) (r : Request) (w : World) : Report * World :=
  match r with
  | GetTodoLists => report (call (getTodoLists rnd) w)
  | CreateList name => report (call (createList rnd name) w)
  | DeleteList listIndex => report (call (deleteList rnd listIndex) w)
  | AddTodo listIndex item => report (call (addTodo rnd listIndex item) w)
  | RemoveTodo listIndex todoIndex => report (call (removeTodo rnd listIndex todoIndex) w)
  | MoveTodo listIndex sourceIndex destIndex =>
      report (call (moveTodo rnd listIndex sourceIndex destIndex) w)
  | EditTodo listIndex itemIndex newValue =>
      report (call (editTodo rnd listIndex itemIndex newValue) w)
  end.

(** The checks a method makes on its index arguments: [listIndex] against the
    number of lists, an item index against the length of the items array of
    that list. *)
Definition valid_list (w : World) (listIndex : Z) : bool :=
  (0 <=? listIndex) && (listIndex <? Z.of_nat (length (todos (todoApi w)))).

Definition valid_item (w : World) (listIndex itemIndex : Z) : bool :=
  match nth_Z (todos (todoApi w)) listIndex with
  | Some l => (0 <=? itemIndex) && (itemIndex <? arr_length (items l))
  | None => false
  end.

Definition indices_valid (w : World) (r : Request) : bool :=
  match r with
  | GetTodoLists | CreateList _ => true
  | DeleteList listIndex | AddTodo listIndex _ => valid_list w listIndex
  | RemoveTodo listIndex i | MoveTodo listIndex i _ | EditTodo listIndex i _ =>
      valid_list w listIndex && valid_item w listIndex i
  end.

(** A promise that was rejected by the index check when [bad]; otherwise
    resolved at the end of the callback when the dispatch [returned], and
    rejected by the handler of [catch] when it threw. *)
Definition checked (bad returned : bool) : option (Settlement bool) :=
  Some (if bad then Rejected index_out_of_bound
        else if returned then Resolved true else Rejected internal_error).

(** The store once the items array of the list at [listIndex] has become [a]. *)
Definition with_items (ts : list TodoList) (listIndex : Z) (a : jsarray jsval)
  : list TodoList :=
  alter (set_items a) (Z.to_nat listIndex) ts.

(** The two [splice] calls of [moveTodo] on an items array. *)
Definition moved (a : jsarray jsval) (sourceIndex destIndex : Z) : jsarray jsval :=
  let '(todo, a1) := arr_splice a sourceIndex 1 [] in
  let realDest := if destIndex <? sourceIndex then destIndex else destIndex - 1 in
  (arr_splice a1 realDest 0 (spread todo)).2.

(** The message a request dispatches when it goes through. *)
Definition notification (r : Request) : list RawMessage :=
  match r with
  | GetTodoLists => []
  | CreateList name => [CreateListMessage (mkTodoList (JsArray [] ∅) name)]
  | DeleteList listIndex => [DeleteListMessage listIndex]
  | AddTodo listIndex item => [AddTodoMessage listIndex item]
  | RemoveTodo listIndex todoIndex => [RemoveTodoMessage listIndex todoIndex]
  | MoveTodo listIndex sourceIndex destIndex =>
      [MoveTodoMessage listIndex sourceIndex destIndex]
  | EditTodo listIndex itemIndex newValue => [EditTodoMessage listIndex itemIndex newValue]
  end.

(** ** Runs: calls on the socket and on the API, one after the other *)

Inductive Step :=
| AddListener (client : SocketClient)
| RemoveListener (client : SocketClient)
| DispatchMessage (message : RawMessage)
| ApiCall (rnd : Q) (r : Request).

(** A direct [dispatchMessage] that a handler stops throws to its caller,
    outside the file; the run goes on from the world it leaves. *)
Definition step (w : World) (s : Step) : World :=
  match s with
  | AddListener client => addListener client w
  | RemoveListener client => removeListener client w
  | DispatchMessage message => after_dispatch message w
  | ApiCall rnd r => (perform rnd r w).2
  end.

Definition run (ss : list Step) (w : World) : World := foldl step w ss.

(** How many positions of the active set a client holds. *)
Definition subscriptions (client : SocketClient) (w : World) : nat :=
  length (filter (λ c, c = client) (clients (fakeSocket w))).

(** The message as a client gets it from a dispatch in the world [w]. *)
Definition stamped (w : World) (message : RawMessage) : SocketMessage :=
  mkSocketMessage (socket_sequenceId (fakeSocket w)) message.

(** What else a request needs to go through: room in the array that
    [push] is called on. *)
Definition within_limit (w : World) (r : Request) : bool :=
  match r with
  | CreateList _ => Z.of_nat (length (todos (todoApi w))) <? 2 ^ 32 - 1
  | AddTodo listIndex _ =>
      match nth_Z (todos (todoApi w)) listIndex with
      | Some l => arr_length (items l) <? 2 ^ 32 - 1
      | None => true
      end
  | _ => true
  end.

(** Whether the dispatch of the notification of a request returns: no
    handler that it calls throws. *)
Definition delivered (w : World) (r : Request) : bool :=
  forallb (λ message, returns message w) (notification r).

(** The list a request on items names. *)
Definition list_of (r : Request) : option Z :=
  match r with
  | GetTodoLists | CreateList _ | DeleteList _ => None
  | AddTodo listIndex _ | RemoveTodo listIndex _ | MoveTodo listIndex _ _
  | EditTodo listIndex _ _ => Some listIndex
  end.

(** An items array as the declared types have it: every position holds a
    [Todo] object, the array has no other property, and it is no longer than
    an array can be. *)
Definition is_todo (c : option jsval) : Prop :=
  match c with
  | Some (VTodo _) => True
  | _ => False
  end.

Definition tidy_array (a : jsarray jsval) : Prop :=
  props a = ∅ ∧ Forall is_todo (cells a) ∧ arr_length a <= 2 ^ 32 - 1.

Definition tidy (ts : list TodoList) : Prop :=
  Forall (λ l, tidy_array (items l)) ts.

#[global] Instance is_todo_dec (c : option jsval) : Decision (is_todo c).
Proof. destruct c as [[| |t]|]; simpl; apply _. Defined.

#[global] Instance tidy_array_dec (a : jsarray jsval) : Decision (tidy_array a).
Proof. unfold tidy_array. apply _. Defined.

#[global] Instance tidy_dec (ts : list TodoList) : Decision (tidy ts).
Proof. unfold tidy. apply _. Defined.

(** ** RandomActionExecutor: its state, [launch] and [stop]

    The three fields that [launch] and [stop] read and write; [actions] holds
    functions and is never assigned. The periods are numbers ([Q]; not NaN).
    [run] and the actions work on timers and are not modelled. *)

Record RandomActionExecutor := mkExecutor {
  running : bool;
  minPeriod : Q;
  maxPeriod : Q
}.

Definition new_RandomActionExecutor : RandomActionExecutor := mkExecutor false 1%Q 5%Q.

Definition Qltb (x y : Q) : bool := negb (Qle_bool y x).

(** [launch(minPeriod, maxPeriod)]: the test reads the fields of [this], and
    the [throw] comes before any assignment. [inl] is the thrown string. *)
Definition launch (minPeriod' maxPeriod' : Q) (this : RandomActionExecutor)
  : string + RandomActionExecutor :=
  if Qltb (minPeriod this) 0%Q || Qltb (maxPeriod this) 0%Q
     || Qle_bool (maxPeriod this) (minPeriod this)
  then inl "min period must be inferior to max period and both must be positive"
  else inr (mkExecutor true minPeriod' maxPeriod').

Definition stop (this : RandomActionExecutor) : RandomActionExecutor :=
  mkExecutor false (minPeriod this) (maxPeriod this).

Inductive ExecutorCall :=
| Launch (minPeriod maxPeriod : Q)
| Stop.

(** The executor after a call; a call that throws leaves it as it was. *)
Definition executor_step (this : RandomActionExecutor) (c : ExecutorCall)
  : RandomActionExecutor :=
  match c with
  | Launch a b =>
      match launch a b this with
      | inr this' => this'
      | inl _ => this
      end
  | Stop => stop this
  end.

Definition executor_run (cs : list ExecutorCall) (this : RandomActionExecutor)
  : RandomActionExecutor :=
  foldl executor_step this cs.

(** ** Sample data *)

Definition itemA : Todo := mkTodo "A" false.
Definition itemB : Todo := mkTodo "B" false.
Definition itemC : Todo := mkTodo "C" false.
Definition itemD : Todo := mkTodo "D" false.

Definition dense (ts : list Todo) : jsarray jsval := JsArray (Some ∘ VTodo <$> ts) ∅.

Definition list_abcd : TodoList := mkTodoList (dense [itemA; itemB; itemC; itemD]) "work".

(** A store holding the list [A, B, C, D] and one subscribed client. *)
Definition world_abcd : World := set_todos [list_abcd] (addListener 7%nat initial_world).

(** The same store with three subscribers, the second of which throws on
    every message. *)
Definition world_loud : World :=
  mkWorld (mkTodoApi 1 [list_abcd]) (mkFakeSocket [7%nat; 8%nat; 9%nat] 0) [] []
    (λ client _ _, Nat.eqb client 8).

(** The same store when the draw can fail. *)
Definition world_flaky : World :=
  mkWorld (mkTodoApi (1 # 2)%Q [list_abcd]) (mkFakeSocket [7%nat] 0) [] [] (λ _ _ _, false).

Definition half : Q := (1 # 2)%Q.
Definition three_quarters : Q := (3 # 4)%Q.

(** ** The store as a heap of objects

    Objects have an identity here: a location of the heap. [getTodoLists]
    is the method again, now allocating the objects it returns. *)

Module Heap.
Definition loc := positive.

(** What a position or a property of an array holds. *)
Inductive value :=
| Undefined
| Ref (l : loc).

Inductive object :=
| TodoObject (description : string) (done : bool)
| EmptyObject
| ListObject (items : loc) (name : string)
| ArrayObject (cells : list (option value)) (props : gmap Z value).

Abbreviation heap := (gmap loc object).

(** A computation over the heap; [None] stands for a heap that is not
    typed as the file declares it (a list whose [items] is no array, ...). *)
Definition H (A : Type) : Type := heap → option (A * heap).

Definition hret {A : Type} (a : A) : H A := λ h, Some (a, h).

Definition hbind {A B : Type} (m : H A) (k : A → H B) : H B :=
  λ h, match m h with
       | Some (a, h') => k a h'
       | None => None
       end.

Definition ill_typed {A : Type} : H A := λ _, None.

#[global] Instance H_ret : MRet H := @hret.
#[global] Instance H_bind : MBind H := λ A B k m, hbind m k.

(** A new object gets a location that is not in use. *)
Definition alloc (o : object) : H loc :=
  λ h, let l := fresh (dom h) in Some (l, <[l := o]> h).

Definition read (l : loc) : H object :=
  λ h, match h !! l with
       | Some o => Some (o, h)
       | None => None
       end.

(** [{...todo}] *)
Definition spread_object (todo : value) : H value :=
  match todo with
  | Undefined => l ← alloc EmptyObject; mret (Ref l)
  | Ref l =>
      o ← read l;
      match o with
      | TodoObject description done =>
          l' ← alloc (TodoObject description done); mret (Ref l')
      | EmptyObject => l' ← alloc EmptyObject; mret (Ref l')
      | _ => ill_typed
      end
  end.

(** The loop of [map]: the callback runs on the elements, a hole stays
    a hole. *)
Fixpoint map_cells (f : value → H value) (cs : list (option value))
  : H (list (option value)) :=
  match cs with
  | [] => mret []
  | None :: cs => cs' ← map_cells f cs; mret (None :: cs')
  | Some v :: cs => v' ← f v; cs' ← map_cells f cs; mret (Some v' :: cs')
  end.

(** [a.map(f)]: a new array. *)
Definition array_map (f : value → H value) (a : loc) : H loc :=
  o ← read a;
  match o with
  | ArrayObject cs _ => cs' ← map_cells f cs; alloc (ArrayObject cs' ∅)
  | _ => ill_typed
  end.

(** [todolist => ({name: todolist.name, items: todolist.items.map(todo =>
    ({...todo}))})] *)
Definition alloc_todolist_copy (todolist : value) : H value :=
  match todolist with
  | Undefined => ill_typed
  | Ref l =>
      o ← read l;
      match o with
      | ListObject items name =>
          items' ← array_map spread_object items;
          l' ← alloc (ListObject items' name);
          mret (Ref l')
      | _ => ill_typed
      end
  end.

(** The method, with the two fields of [this] as arguments: the promise is
    settled with a reference to the new array. *)
Definition getTodoLists (successRate rnd : Q) (todos : loc) : H (Settlement loc) :=
  if isSuccess successRate rnd then
    response ← array_map alloc_todolist_copy todos;
    mret (Resolved response)
  else
    mret (Rejected (buildErrorResponse 500 "internal error")).

(** *** Reading a value off the heap *)

Definition decode_item (h : heap) (v : value) : option jsval :=
  match v with
  | Undefined => Some VUndefined
  | Ref l =>
      match h !! l with
      | Some (TodoObject description done) => Some (VTodo (mkTodo description done))
      | Some EmptyObject => Some VEmpty
      | _ => None
      end
  end.

Fixpoint decode_cells {A : Type} (f : value → option A) (cs : list (option value))
  : option (list (option A)) :=
  match cs with
  | [] => Some []
  | None :: cs => cs' ← decode_cells f cs; Some (None :: cs')
  | Some v :: cs => v' ← f v; cs' ← decode_cells f cs; Some (Some v' :: cs')
  end.

Definition decode_props {A : Type} (f : value → option A) (ps : gmap Z value)
  : option (gmap Z A) :=
  if decide (map_Forall (λ _ v, is_Some (f v)) ps) then Some (omap f ps) else None.

Definition decode_array {A : Type} (f : value → option A) (h : heap) (a : loc)
  : option (jsarray A) :=
  match h !! a with
  | Some (ArrayObject cs ps) =>
      cs' ← decode_cells f cs; ps' ← decode_props f ps; Some (JsArray cs' ps')
  | _ => None
  end.

Definition decode_list (h : heap) (v : value) : option TodoList :=
  match v with
  | Undefined => None
  | Ref l =>
      match h !! l with
      | Some (ListObject items name) =>
          a ← decode_array (decode_item h) h items; Some (mkTodoList a name)
      | _ => None
      end
  end.

(** [todos] is dense and has no other property. *)
Definition decode_store (h : heap) (todos : loc) : option (list TodoList) :=
  a ← decode_array (decode_list h) h todos;
  if decide (props a = ∅) then mapM id (cells a) else None.

(** *** Which objects an object refers to *)

Definition refers (o : object) (l' : loc) : Prop :=
  match o with
  | ListObject items _ => l' = items
  | ArrayObject cs ps => Some (Ref l') ∈ cs ∨ ∃ k, ps !! k = Some (Ref l')
  | TodoObject _ _ | EmptyObject => False
  end.

Definition points_to (h : heap) (l l' : loc) : Prop :=
  ∃ o, h !! l = Some o ∧ refers o l'.

Definition reachable (h : heap) : loc → loc → Prop := rtc (points_to h).

(** An object is kept from [h] to [h'] when every object that can be
    reached from it in [h] is the same in [h']. *)
Definition kept (h h' : heap) (l : loc) : Prop :=
  ∀ l' o, reachable h l l' → h !! l' = Some o → h' !! l' = Some o.

(** [h] has grown out of [h0]: the objects of [h0] are as they were, and the
    objects that came after refer to objects that came after only. *)
Definition grows (h0 h : heap) : Prop :=
  h0 ⊆ h ∧ ∀ l l', h0 !! l = None → points_to h l l' → h0 !! l' = None.

(** *** Sample heap: the list "work" with the item A, and [todos] at 1 *)
Definition sample_heap : heap :=
  <[1%positive := ArrayObject [Some (Ref 2%positive)] ∅]>
  (<[2%positive := ListObject 3%positive "work"]>
  (<[3%positive := ArrayObject [Some (Ref 4%positive)] ∅]>
  (<[4%positive := TodoObject "A" false]> ∅))).
End Heap.

(** * Properties *)

(** ** Arithmetic of indices *)

Lemma nth_Z_Some {X : Type} (l : list X) (i : Z) (x : X) :
  nth_Z l i = Some x ↔ 0 <= i ∧ l !! Z.to_nat i = Some x.
Proof.
  unfold nth_Z. destruct (Z.ltb_spec i 0); split.
  - discriminate.
  - intros [? _]. lia.
  - auto.
  - intros [_ ?]. assumption.
Qed.

Lemma nth_Z_None {X : Type} (l : list X) (i : Z) :
  nth_Z l i = None ↔ i < 0 ∨ Z.of_nat (length l) <= i.
Proof.
  unfold nth_Z. destruct (Z.ltb_spec i 0).
  - split; auto.
  - rewrite lookup_ge_None. lia.
Qed.

(** ** What a dispatch does to the world *)

Lemma forEach_cons (f : SocketClient → World → (exn + unit) * World) c cs w :
  forEach f (c :: cs) w
  = match f c w with
    | (inl e, w') => (inl e, w')
    | (inr _, w') => forEach f cs w'
    end.
Proof. done. Qed.

Lemma forEach_handleMessage (message : RawMessage) (cs : list SocketClient) (w : World) :
  let f := λ client w,
             handleMessage client
               (mkSocketMessage (socket_sequenceId (fakeSocket w)) message) w in
  ∃ k, (k ≤ length cs)%nat
       ∧ (forEach f cs w).2
         = mkWorld (todoApi w) (fakeSocket w)
             (received w ++ ((λ client, (client, stamped w message)) <$> take k cs))
             (dispatches w) (throws w).
Proof.
  intros f. revert w. induction cs as [|c cs IH]; intros w.
  - exists 0%nat. split; [done|]. simpl. rewrite app_nil_r. by destruct w.
  - assert (f c w = handleMessage c (stamped w message) w) as Hf by done.
    rewrite forEach_cons, Hf. unfold handleMessage, stamped.
    destruct (throws w c (received_by c w) _).
    + exists 1%nat. split; [simpl; lia|]. by destruct cs.
    + match goal with
      | |- context [forEach f cs ?w1] => destruct (IH w1) as (k & Hk & Hw)
      end.
      exists (S k). split; [simpl; lia|].
      rewrite Hw. unfold stamped. simpl. by rewrite <- app_assoc.
Qed.

Lemma forEach_returns (message : RawMessage) (cs : list SocketClient) (w : World) :
  let f := λ client w,
             handleMessage client
               (mkSocketMessage (socket_sequenceId (fakeSocket w)) message) w in
  ((forEach f cs w).1 = inr tt ∨ (forEach f cs w).1 = inl Thrown)
  ∧ ((forEach f cs w).1 = inr tt →
     received (forEach f cs w).2
     = received w ++ ((λ client, (client, stamped w message)) <$> cs))
  ∧ ((∀ c, c ∈ cs → ∀ before m, throws w c before m = false) →
     (forEach f cs w).1 = inr tt).
Proof.
  intros f. revert w. induction cs as [|c cs IH]; intros w.
  - simpl. split_and!; [by left| |done]. by rewrite app_nil_r.
  - assert (f c w = handleMessage c (stamped w message) w) as Hf by done.
    rewrite forEach_cons, Hf. unfold handleMessage, stamped.
    destruct (throws w c (received_by c w) _) eqn:Et.
    + split_and!; [by right|done|]. intros Hq.
      rewrite Hq in Et by left. discriminate.
    + match goal with
      | |- context [forEach f cs ?w1] => destruct (IH w1) as (H1 & H2 & H3)
      end.
      split_and!; [done| |].
      * intros Hr. rewrite (H2 Hr). unfold stamped. simpl. by rewrite <- app_assoc.
      * intros Hq. apply H3. intros c' Hc'. simpl. apply Hq. by right.
Qed.

Lemma after_dispatch_eq (message : RawMessage) (w : World) :
  after_dispatch message w
  = mkWorld (todoApi w) (fakeSocket w)
      (received w ++
         ((λ client, (client, stamped w message))
            <$> take (handed message w) (clients (fakeSocket w))))
      (dispatches w ++ [mkDispatch message (todos (todoApi w))])
      (throws w).
Proof.
  unfold handed. unfold after_dispatch, dispatchMessage.
  destruct (forEach_handleMessage message (clients (fakeSocket w)) (log_dispatch message w))
    as (k & Hk & Hw).
  rewrite Hw. simpl. rewrite length_app, length_fmap, length_take.
  by replace (length (received w) + k `min` length (clients (fakeSocket w))
              - length (received w))%nat with k by lia.
Qed.

Lemma handed_le message w : (handed message w ≤ length (clients (fakeSocket w)))%nat.
Proof.
  unfold handed, after_dispatch, dispatchMessage.
  destruct (forEach_handleMessage message (clients (fakeSocket w)) (log_dispatch message w))
    as (k & Hk & Hw).
  rewrite Hw. simpl. rewrite length_app, length_fmap, length_take. lia.
Qed.

Lemma dispatch_outcome message w :
  (dispatchMessage message w).1 = if returns message w then inr tt else inl Thrown.
Proof.
  unfold returns, dispatchMessage.
  destruct (forEach_returns message (clients (fakeSocket w)) (log_dispatch message w))
    as ([->| ->] & _); done.
Qed.

(** A dispatch that returns has called every client. *)
Lemma returns_handed message w :
  returns message w = true → handed message w = length (clients (fakeSocket w)).
Proof.
  intros Hr. pose proof (dispatch_outcome message w) as Ho. rewrite Hr in Ho.
  unfold handed, after_dispatch. unfold dispatchMessage in *.
  destruct (forEach_returns message (clients (fakeSocket w)) (log_dispatch message w))
    as (_ & H2 & _).
  rewrite (H2 Ho). simpl. rewrite length_app, length_fmap. lia.
Qed.

Lemma quiet_returns message w : quiet w → returns message w = true.
Proof.
  intros Hq. unfold returns, dispatchMessage.
  destruct (forEach_returns message (clients (fakeSocket w)) (log_dispatch message w))
    as (_ & _ & H3).
  by rewrite H3.
Qed.

(** A dispatch that does not return stopped at a client whose handler threw
    on that call: the client of the last position it got to. *)
Lemma forEach_thrown (message : RawMessage) (cs : list SocketClient) (w : World) :
  let f := λ client w,
             handleMessage client
               (mkSocketMessage (socket_sequenceId (fakeSocket w)) message) w in
  (forEach f cs w).1 = inl Thrown →
  ∃ k thrower,
    cs !! k = Some thrower
    ∧ received (forEach f cs w).2
      = received w ++ ((λ client, (client, stamped w message)) <$> take (S k) cs)
    ∧ throws w thrower
        (received_by thrower w
         ++ replicate (length (filter (λ y, y = thrower) (take k cs)))
              (stamped w message))
        (stamped w message) = true.
Proof.
  intros f. revert w. induction cs as [|c cs IH]; intros w; [done|].
  assert (f c w = handleMessage c (stamped w message) w) as Hf by done.
  rewrite forEach_cons, Hf. unfold handleMessage.
  destruct (throws w c (received_by c w) _) eqn:Et.
  - intros _. exists 0%nat, c. split_and!; [done|done|].
    simpl. by rewrite app_nil_r.
  - intros Hthrown.
    match type of Hthrown with
    | context [forEach f cs ?w1] =>
        destruct (IH w1 Hthrown) as (k & thrower & Hk & Hrc & Hth)
    end.
    exists (S k), thrower. split_and!; [done| |].
    + rewrite Hrc. unfold stamped. simpl. by rewrite <- app_assoc.
    + rewrite <- Hth. unfold stamped, received_by. simpl.
      rewrite filter_app, fmap_app, filter_cons.
      destruct (decide (c = thrower)) as [->|Hne].
      * rewrite filter_cons_True by done. simpl. by rewrite <- app_assoc.
      * rewrite filter_cons_False by done. simpl. by rewrite app_nil_r.
Qed.

Lemma thrown_at message w :
  returns message w = false →
  ∃ k thrower,
    handed message w = S k
    ∧ clients (fakeSocket w) !! k = Some thrower
    ∧ throws w thrower
        (received_by thrower w
         ++ replicate (length (filter (λ y, y = thrower)
                                 (take k (clients (fakeSocket w)))))
              (stamped w message))
        (stamped w message) = true.
Proof.
  intros Hr. pose proof (dispatch_outcome message w) as Ho. rewrite Hr in Ho.
  unfold dispatchMessage in Ho.
  destruct (forEach_thrown message (clients (fakeSocket w)) (log_dispatch message w) Ho)
    as (k & thrower & Hk & Hrc & Hth).
  exists k, thrower. split_and!; [|done|done].
  unfold handed, after_dispatch, dispatchMessage. rewrite Hrc. simpl.
  pose proof (lookup_lt_Some _ _ _ Hk).
  rewrite length_app, length_fmap, length_take. lia.
Qed.

(** What a dispatch does, to the socket and to the clients, does not depend
    on the store. *)
Lemma forEach_same_socket (message : RawMessage) (cs : list SocketClient) (w1 w2 : World) :
  let f := λ client w,
             handleMessage client
               (mkSocketMessage (socket_sequenceId (fakeSocket w)) message) w in
  fakeSocket w1 = fakeSocket w2 → received w1 = received w2 → throws w1 = throws w2 →
  (forEach f cs w1).1 = (forEach f cs w2).1
  ∧ received (forEach f cs w1).2 = received (forEach f cs w2).2.
Proof.
  intros f. revert w1 w2. induction cs as [|c cs IH]; intros w1 w2 Hs Hr Ht; [done|].
  assert (∀ w, f c w = handleMessage c (stamped w message) w) as Hf by done.
  rewrite !forEach_cons, !Hf. unfold handleMessage, stamped, received_by.
  rewrite Hs, Hr, Ht.
  destruct (throws w2 c _ _); [done|].
  by apply IH.
Qed.

Lemma returns_set_todos message ts w : returns message (set_todos ts w) = returns message w.
Proof.
  unfold returns, dispatchMessage.
  change (clients (fakeSocket (set_todos ts w))) with (clients (fakeSocket w)).
  assert (H := forEach_same_socket message (clients (fakeSocket w))
                 (log_dispatch message (set_todos ts w)) (log_dispatch message w)).
  cbv zeta in H. destruct H as [-> _]; done.
Qed.

Lemma handed_set_todos message ts w : handed message (set_todos ts w) = handed message w.
Proof.
  unfold handed, after_dispatch, dispatchMessage.
  change (clients (fakeSocket (set_todos ts w))) with (clients (fakeSocket w)).
  assert (H := forEach_same_socket message (clients (fakeSocket w))
                 (log_dispatch message (set_todos ts w)) (log_dispatch message w)).
  cbv zeta in H. destruct H as [_ ->]; done.
Qed.

Lemma take_all {X : Type} (l : list X) : take (length l) l = l.
Proof. by apply take_ge. Qed.

(** The dispatch as the methods call it. *)
Lemma fakeSocket_dispatchMessage_eq {T : Type} message (c : Call T) :
  fakeSocket_dispatchMessage message c
  = (if returns message (world c) then inr tt else inl Thrown,
     mkCall (after_dispatch message (world c)) (promise c)).
Proof.
  unfold fakeSocket_dispatchMessage, after_dispatch.
  pose proof (dispatch_outcome message (world c)) as Ho.
  destruct (dispatchMessage message (world c)) as [r w']. simpl in *. by rewrite Ho.
Qed.

Lemma set_todos_twice ts1 ts2 w : set_todos ts2 (set_todos ts1 w) = set_todos ts2 w.
Proof. done. Qed.

Lemma spread_empty : Some <$> spread arr_empty = [].
Proof. done. Qed.

(** ** The calls, run

    Each method as one equation: how the promise settles and the world it
    leaves, by cases on the draw, on the checks and on the dispatch. *)

Section CallEquations.
#[local] Opaque arr_splice arr_set spread fakeSocket_dispatchMessage returns after_dispatch.

Ltac run_call :=
cbv [call mbind M_bind bind mret M_ret ret throw try_catch get_world modify_world
     settle resolve reject or_else this_successRate this_todos todos_length
     todos_push todos_splice items_at on_items items_length items_push
     items_splice items_set]; simpl.

(** The dispatch and what follows it, decided. *)
Ltac run_dispatch :=
  unfold with_items; rewrite !fakeSocket_dispatchMessage_eq; simpl;
  rewrite ?set_todos_twice;
  match goal with
  | |- context [returns ?m ?w] => destruct (returns m w); simpl
  end.

Lemma call_getTodoLists rnd w :
call (getTodoLists rnd) w =
if isSuccess (successRate (todoApi w)) rnd
then (Some (Resolved (copy_todolist <$> todos (todoApi w))), w)
else (Some (Rejected internal_error), w).
Proof. unfold getTodoLists. run_call. by destruct (isSuccess _ _). Qed.

Lemma call_deleteList rnd listIndex w :
call (deleteList rnd listIndex) w =
let w' := set_todos (splice (todos (todoApi w)) listIndex 1 []).2 w in
if isSuccess (successRate (todoApi w)) rnd
then (checked ((listIndex <? 0) || (listIndex >=? Z.of_nat (length (todos (todoApi w)))))
        (returns (DeleteListMessage listIndex) w'),
      after_dispatch (DeleteListMessage listIndex) w')
else (Some (Rejected internal_error), w).
Proof.
unfold deleteList. run_call. destruct (isSuccess _ _); [|done].
destruct (listIndex <? 0); simpl; [by run_dispatch|].
destruct (listIndex >=? _); by run_dispatch.
Qed.

Lemma call_createList rnd name' w :
call (createList rnd name') w =
let ts := todos (todoApi w) in
let message := CreateListMessage (mkTodoList arr_empty name') in
let w' := set_todos (ts ++ [mkTodoList arr_empty name']) w in
if isSuccess (successRate (todoApi w)) rnd then
  if Z.of_nat (length ts) <? 2 ^ 32 - 1
  then (if returns message w' then Some (Resolved (Z.of_nat (length ts))) else None,
        after_dispatch message w')
  else (None, w)
else (Some (Rejected internal_error), w).
Proof.
unfold createList. run_call. destruct (isSuccess _ _); [|done].
destruct (_ <? _); [|done]. simpl.
assert (nth_Z (todos (todoApi w) ++ [mkTodoList arr_empty name'])
          (Z.of_nat (length (todos (todoApi w) ++ [mkTodoList arr_empty name'])) - 1)
        = Some (mkTodoList arr_empty name')) as ->.
{ apply nth_Z_Some. rewrite length_app. simpl. split; [lia|].
  replace (Z.to_nat _) with (length (todos (todoApi w))) by lia.
  by apply list_lookup_middle. }
simpl. rewrite spread_empty. change (JsArray [] ∅) with (@arr_empty jsval).
run_dispatch; [|done]. do 3 f_equal. lia.
Qed.

(** Cases on [this.todos[listIndex]], with the two comparisons of the index
  check decided in each case. *)
Ltac split_list_check :=
match goal with
| |- context [nth_Z ?ts ?i] =>
    let E := fresh "E" in
    let Hlt := fresh "Hlt" in
    let Hge := fresh "Hge" in
    destruct (nth_Z ts i) as [?l|] eqn:E;
    [ assert ((i <? 0) = false ∧ (i >=? Z.of_nat (length ts)) = false) as [Hlt Hge]
        by (apply nth_Z_Some in E as [? ?%lookup_lt_Some]; lia)
    | assert ((i <? 0) = true ∨ ((i <? 0) = false ∧ (i >=? Z.of_nat (length ts)) = true))
        as [Hlt|[Hlt Hge]]
        by (apply nth_Z_None in E; destruct (Z.ltb_spec i 0);
            [by left|right; split; [done|lia]]) ];
    repeat (progress (simpl; rewrite ?Hlt, ?Hge, ?E))
end.

Lemma call_addTodo rnd listIndex item w :
call (addTodo rnd listIndex item) w =
let ts := todos (todoApi w) in
if isSuccess (successRate (todoApi w)) rnd then
  match nth_Z ts listIndex with
  | None => (Some (Rejected index_out_of_bound), w)
  | Some l =>
      let w' := set_todos (with_items ts listIndex (arr_push (items l) (VTodo item)).1) w in
      if arr_length (items l) <? 2 ^ 32 - 1
      then (checked false (returns (AddTodoMessage listIndex item) w'),
            after_dispatch (AddTodoMessage listIndex item) w')
      else (Some (Rejected internal_error), w')
  end
else (Some (Rejected internal_error), w).
Proof.
unfold addTodo. run_call. destruct (isSuccess _ _); [|done].
split_list_check; try done.
unfold arr_push. destruct (arr_length (items l) <? 2 ^ 32 - 1); simpl; [|done].
by run_dispatch.
Qed.

Lemma nth_Z_alter {X : Type} (f : X → X) (l : list X) (i : Z) (x : X) :
nth_Z l i = Some x → nth_Z (alter f (Z.to_nat i) l) i = Some (f x).
Proof.
intros [Hi Hx]%nth_Z_Some. apply nth_Z_Some. split; [done|].
by rewrite list_lookup_alter_eq, Hx.
Qed.

Lemma with_items_twice ts listIndex a1 a2 :
alter (set_items a2) (Z.to_nat listIndex) (with_items ts listIndex a1)
= with_items ts listIndex a2.
Proof.
unfold with_items. rewrite list_alter_alter_eq. by apply list_alter_ext.
Qed.

Lemma call_removeTodo rnd listIndex todoIndex w :
call (removeTodo rnd listIndex todoIndex) w =
let ts := todos (todoApi w) in
if isSuccess (successRate (todoApi w)) rnd then
  match nth_Z ts listIndex with
  | None => (Some (Rejected index_out_of_bound), w)
  | Some l =>
      let w' :=
        set_todos (with_items ts listIndex (arr_splice (items l) todoIndex 1 []).2) w in
      (checked ((todoIndex <? 0) || (todoIndex >=? arr_length (items l)))
         (returns (RemoveTodoMessage listIndex todoIndex) w'),
       after_dispatch (RemoveTodoMessage listIndex todoIndex) w')
  end
else (Some (Rejected internal_error), w).
Proof.
unfold removeTodo. run_call. destruct (isSuccess _ _); [|done].
split_list_check; try done.
destruct (todoIndex <? 0); simpl; rewrite ?E; simpl;
  [|destruct (todoIndex >=? _); simpl; rewrite ?E; simpl];
  destruct (arr_splice (items l) todoIndex 1 []) as [removed a']; simpl;
  by run_dispatch.
Qed.

Lemma call_moveTodo rnd listIndex sourceIndex destIndex w :
call (moveTodo rnd listIndex sourceIndex destIndex) w =
let ts := todos (todoApi w) in
if isSuccess (successRate (todoApi w)) rnd then
  match nth_Z ts listIndex with
  | None => (Some (Rejected index_out_of_bound), w)
  | Some l =>
      let w' :=
        set_todos (with_items ts listIndex (moved (items l) sourceIndex destIndex)) w in
      (checked ((sourceIndex <? 0) || (sourceIndex >=? arr_length (items l)))
         (returns (MoveTodoMessage listIndex sourceIndex destIndex) w'),
       after_dispatch (MoveTodoMessage listIndex sourceIndex destIndex) w')
  end
else (Some (Rejected internal_error), w).
Proof.
unfold moveTodo. run_call. destruct (isSuccess _ _); [|done].
split_list_check; try done.
unfold moved.
destruct (sourceIndex <? 0); simpl; rewrite ?E; simpl;
  [|destruct (sourceIndex >=? _); simpl; rewrite ?E; simpl];
  destruct (arr_splice (items l) sourceIndex 1 []) as [todo a1]; simpl;
  rewrite (nth_Z_alter _ _ _ _ E); simpl;
  (match goal with
   | |- context [arr_splice a1 ?d 0 (spread todo)] =>
       destruct (arr_splice a1 d 0 (spread todo)) as [removed a2]
   end); simpl;
  fold (with_items (todos (todoApi w)) listIndex a1);
  rewrite with_items_twice; by run_dispatch.
Qed.

Lemma call_editTodo rnd listIndex itemIndex newValue w :
call (editTodo rnd listIndex itemIndex newValue) w =
let ts := todos (todoApi w) in
if isSuccess (successRate (todoApi w)) rnd then
  match nth_Z ts listIndex with
  | None => (Some (Rejected index_out_of_bound), w)
  | Some l =>
      let w' :=
        set_todos (with_items ts listIndex (arr_set (items l) itemIndex (VTodo newValue)))
          w in
      (checked ((itemIndex <? 0) || (itemIndex >=? arr_length (items l)))
         (returns (EditTodoMessage listIndex itemIndex newValue) w'),
       after_dispatch (EditTodoMessage listIndex itemIndex newValue) w')
  end
else (Some (Rejected internal_error), w).
Proof.
unfold editTodo. run_call. destruct (isSuccess _ _); [|done].
split_list_check; try done.
destruct (itemIndex <? 0); simpl; rewrite ?E; simpl;
  [|destruct (itemIndex >=? _); simpl; rewrite ?E; simpl];
  by run_dispatch.
Qed.
End CallEquations.

(** ** What any call can do to the world *)

Lemma set_todos_same w : set_todos (todos (todoApi w)) w = w.
Proof. by destruct w as [[rate ts] s rc ds t]. Qed.

Lemma report_world {T : Type} (r : option (Settlement T) * World) : (report r).2 = r.2.
Proof. by destruct r as [[[?|?]|] ?]. Qed.

(** A call changes the store, and then dispatches at most once. *)
Lemma perform_world rnd r w :
  ∃ ts, (perform rnd r w).2 = set_todos ts w
        ∨ ∃ message, (perform rnd r w).2 = after_dispatch message (set_todos ts w).
Proof.
  destruct r; simpl; rewrite report_world.
  - rewrite call_getTodoLists. exists (todos (todoApi w)). left.
    rewrite set_todos_same. by destruct (isSuccess _ _).
  - rewrite call_createList. simpl. destruct (isSuccess _ _); [destruct (_ <? _)|]; simpl.
    + eexists. right. by eexists.
    + exists (todos (todoApi w)). left. by rewrite set_todos_same.
    + exists (todos (todoApi w)). left. by rewrite set_todos_same.
  - rewrite call_deleteList. destruct (isSuccess _ _); simpl.
    + eexists. right. by eexists.
    + exists (todos (todoApi w)). left. by rewrite set_todos_same.
  - rewrite call_addTodo. simpl. destruct (isSuccess _ _); [destruct (nth_Z _ _)|]; simpl.
    + destruct (_ <? _); simpl; eexists; [right; by eexists|by left].
    + exists (todos (todoApi w)). left. by rewrite set_todos_same.
    + exists (todos (todoApi w)). left. by rewrite set_todos_same.
  - rewrite call_removeTodo. simpl. destruct (isSuccess _ _); [destruct (nth_Z _ _)|]; simpl.
    + eexists. right. by eexists.
    + exists (todos (todoApi w)). left. by rewrite set_todos_same.
    + exists (todos (todoApi w)). left. by rewrite set_todos_same.
  - rewrite call_moveTodo. simpl. destruct (isSuccess _ _); [destruct (nth_Z _ _)|]; simpl.
    + eexists. right. by eexists.
    + exists (todos (todoApi w)). left. by rewrite set_todos_same.
    + exists (todos (todoApi w)). left. by rewrite set_todos_same.
  - rewrite call_editTodo. simpl. destruct (isSuccess _ _); [destruct (nth_Z _ _)|]; simpl.
    + eexists. right. by eexists.
    + exists (todos (todoApi w)). left. by rewrite set_todos_same.
    + exists (todos (todoApi w)). left. by rewrite set_todos_same.
Qed.

Lemma perform_fakeSocket rnd r w : fakeSocket (perform rnd r w).2 = fakeSocket w.
Proof.
  destruct (perform_world rnd r w) as [ts [->|[m ->]]]; [done|].
  by rewrite after_dispatch_eq.
Qed.

Lemma perform_throws rnd r w : throws (perform rnd r w).2 = throws w.
Proof.
  destruct (perform_world rnd r w) as [ts [->|[m ->]]]; [done|].
  by rewrite after_dispatch_eq.
Qed.

(** ** C5: a failed draw *)

(** C5. For every operation, when the draw [Math.random() < successRate]
    fails, the promise is rejected with the envelope of code 500 and
    description "internal error", and the world is the one before the call:
    no list or item has changed and nothing was dispatched or delivered. *)
Theorem failed_draw_rejects_500_without_effect (rnd : Q) (r : Request) (w : World) :
  isSuccess (successRate (todoApi w)) rnd = false →
  perform rnd r w = (Failure (mkError 500 "internal error"), w).
Proof.
  intros Hdraw. destruct r; simpl; unfold report.
  - by rewrite call_getTodoLists, Hdraw.
  - by rewrite call_createList; simpl; rewrite Hdraw.
  - by rewrite call_deleteList, Hdraw.
  - by rewrite call_addTodo; simpl; rewrite Hdraw.
  - by rewrite call_removeTodo; simpl; rewrite Hdraw.
  - by rewrite call_moveTodo; simpl; rewrite Hdraw.
  - by rewrite call_editTodo; simpl; rewrite Hdraw.
Qed.

Lemma failed_draw_rejects_500_without_effect_witness :
  isSuccess (successRate (todoApi world_flaky)) three_quarters = false
  ∧ perform three_quarters (AddTodo 0 itemA) world_flaky
    = (Failure (mkError 500 "internal error"), world_flaky).
Proof.
  split; [reflexivity|].
  apply (failed_draw_rejects_500_without_effect three_quarters (AddTodo 0 itemA) world_flaky).
  reflexivity.
Defined.

(** ** C6: createList *)

(** The call succeeds whenever the draw does and the dispatch returns, short
    of the length limit of arrays. *)
Lemma createList_resolves rnd name' w :
  isSuccess (successRate (todoApi w)) rnd = true →
  Z.of_nat (length (todos (todoApi w))) < 2 ^ 32 - 1 →
  quiet w →
  ∃ w', call (createList rnd name') w
        = (Some (Resolved (Z.of_nat (length (todos (todoApi w))))), w').
Proof.
  intros Hdraw Hlen Hq. rewrite call_createList. simpl. rewrite Hdraw.
  destruct (Z.ltb_spec (Z.of_nat (length (todos (todoApi w)))) (2 ^ 32 - 1)); [|lia].
  rewrite quiet_returns by done. by eexists.
Qed.

(** C6. A successful [createList(name)] leaves the store as it was with one
    list appended at its end, of that name and with no item; the lists that
    were there are unchanged, and the response is the index of the new list,
    which is the length of the store before the call. *)
Theorem createList_appends (rnd : Q) (name' : string) (w w' : World) (index : Z) :
  call (createList rnd name') w = (Some (Resolved index), w') →
  todos (todoApi w') = todos (todoApi w) ++ [mkTodoList (JsArray [] ∅) name']
  ∧ index = Z.of_nat (length (todos (todoApi w)))
  ∧ nth_Z (todos (todoApi w')) index = Some (mkTodoList (JsArray [] ∅) name')
  ∧ ∀ i l, nth_Z (todos (todoApi w)) i = Some l → nth_Z (todos (todoApi w')) i = Some l.
Proof.
  rewrite call_createList. simpl.
  destruct (isSuccess _ _); [destruct (_ <? _); [destruct (returns _ _)|]|];
    intros [= <- <-].
  rewrite after_dispatch_eq. simpl. split_and!; [done..| |].
  - apply nth_Z_Some. split; [lia|]. rewrite Nat2Z.id. by apply list_lookup_middle.
  - intros i l [Hi Hl]%nth_Z_Some. apply nth_Z_Some. split; [done|].
    by apply lookup_app_l_Some.
Qed.

Lemma createList_appends_witness :
  let w' := (call (createList half "home") world_abcd).2 in
  todos (todoApi w') = todos (todoApi world_abcd) ++ [mkTodoList (JsArray [] ∅) "home"]
  ∧ 1 = Z.of_nat (length (todos (todoApi world_abcd)))
  ∧ nth_Z (todos (todoApi w')) 1 = Some (mkTodoList (JsArray [] ∅) "home")
  ∧ ∀ i l, nth_Z (todos (todoApi world_abcd)) i = Some l → nth_Z (todos (todoApi w')) i = Some l.
Proof.
  apply (createList_appends half "home" world_abcd _ 1). vm_compute. reflexivity.
Defined.

(** ** The socket along a run *)

Lemma received_by_deliveries (c : SocketClient) (msg : SocketMessage) (cs : list SocketClient) :
  snd <$> filter (λ d : SocketClient * SocketMessage, d.1 = c)
            ((λ client, (client, msg)) <$> cs)
  = replicate (length (filter (λ x, x = c) cs)) msg.
Proof.
  induction cs as [|x cs IH]; [done|].
  rewrite fmap_cons, !filter_cons. cbn [fst].
  destruct (decide (x = c)); [rewrite fmap_cons|]; cbn [snd length replicate];
    by rewrite IH.
Qed.

(** What a dispatch hands to one client: the message, once for each position
    the client holds among those the dispatch got to. *)
Lemma received_by_after_dispatch c message w :
  received_by c (after_dispatch message w)
  = received_by c w
    ++ replicate (length (filter (λ x, x = c)
                            (take (handed message w) (clients (fakeSocket w)))))
         (stamped w message).
Proof.
  unfold received_by at 1 2. rewrite after_dispatch_eq. simpl.
  by rewrite filter_app, fmap_app, received_by_deliveries.
Qed.

Lemma received_by_dispatchMessage c message w :
  returns message w = true →
  received_by c (after_dispatch message w)
  = received_by c w ++ replicate (subscriptions c w) (stamped w message).
Proof.
  intros Hr. rewrite received_by_after_dispatch, returns_handed by done.
  by rewrite take_all.
Qed.

Lemma filter_take_length {X : Type} (P : X → Prop) `{∀ x, Decision (P x)}
    (k : nat) (l : list X) :
  (length (filter P (take k l)) ≤ length (filter P l))%nat.
Proof.
  rewrite <- (take_drop k l) at 2. rewrite filter_app, length_app. lia.
Qed.

Lemma subscriptions_0 c w : c ∉ clients (fakeSocket w) → subscriptions c w = 0%nat.
Proof.
  intros Hc. unfold subscriptions.
  destruct (filter _ _) as [|x l] eqn:E; [done|].
  assert (x ∈ filter (λ x, x = c) (clients (fakeSocket w))) as Hx
    by (rewrite E; left).
  apply list_elem_of_filter in Hx as [-> Hx]. contradiction.
Qed.

(** A dispatch hands nothing to a client that is not subscribed, wherever it
    stops. *)
Lemma received_by_unsubscribed c message w :
  c ∉ clients (fakeSocket w) →
  received_by c (after_dispatch message w) = received_by c w.
Proof.
  intros Hc. rewrite received_by_after_dispatch.
  pose proof (filter_take_length (λ x, x = c) (handed message w) (clients (fakeSocket w)))
    as Hle.
  apply subscriptions_0 in Hc. unfold subscriptions in Hc.
  destruct (length (filter _ (take _ _))); [|lia]. simpl. by rewrite app_nil_r.
Qed.

Lemma received_by_perform c rnd r w :
  c ∉ clients (fakeSocket w) → received_by c (perform rnd r w).2 = received_by c w.
Proof.
  intros Hc. destruct (perform_world rnd r w) as [ts [->|[m ->]]]; [done|].
  by rewrite received_by_unsubscribed.
Qed.

(** A client that is not subscribed, and is not subscribed again, gets
    nothing, whatever else is called. *)
Lemma unsubscribed_receives_nothing c ss w :
  c ∉ clients (fakeSocket w) → AddListener c ∉ ss →
  received_by c (run ss w) = received_by c w
  ∧ c ∉ clients (fakeSocket (run ss w)).
Proof.
  revert w. induction ss as [|s ss IH]; intros w Hc Hss; [done|].
  apply not_elem_of_cons in Hss as [Hs Hss]. unfold run. simpl. fold (run ss (step w s)).
  destruct (IH (step w s)) as [IH1 IH2]; [|done|].
  - destruct s as [x|x|m|rnd r]; simpl.
    + apply not_elem_of_app. split; [done|].
      rewrite list_elem_of_singleton. congruence.
    + rewrite list_elem_of_filter. tauto.
    + by rewrite after_dispatch_eq.
    + by rewrite perform_fakeSocket.
  - split; [|done]. rewrite IH1.
    destruct s as [x|x|m|rnd r]; simpl; [done|done| |by apply received_by_perform].
    by rewrite received_by_unsubscribed.
Qed.

Lemma removeListener_removes c w : c ∉ clients (fakeSocket (removeListener c w)).
Proof. simpl. rewrite list_elem_of_filter. tauto. Qed.

Lemma filter_all {X : Type} (P : X → Prop) `{∀ x, Decision (P x)} (l : list X) :
  (∀ x, x ∈ l → P x) → filter P l = l.
Proof.
  induction l as [|x l IH]; [done|]. intros Hl.
  rewrite filter_cons_True by (apply Hl; left).
  f_equal. apply IH. intros y Hy. apply Hl. by right.
Qed.

(** ** C8: unsubscribing, and the order of delivery *)

(** C8. (1) [removeListener] with a client that is not in the active set
    leaves the world, and so the active set, as it was. (2) Once removed, a
    client is handed nothing by any later dispatch, made directly or by a
    call of the API, as long as it is not subscribed again. (3) A dispatch
    hands the message to the clients of the active set, one delivery for each
    position and in the order of the set, up to the first handler that
    throws: to all of them when the dispatch returns, which it does when no
    handler of a subscribed client throws, and otherwise to a prefix of the
    set that ends with the client whose handler threw. The order of the set
    is the order of subscription: [addListener] puts the client last,
    [removeListener] keeps the others in their order, and no dispatch or call
    of the API touches the set. *)
Theorem removeListener_and_delivery_order
    (c x : SocketClient) (w : World) (ss : list Step) (message : RawMessage)
    (rnd : Q) (r : Request) :
  (c ∉ clients (fakeSocket w) → removeListener c w = w)
  ∧ (AddListener c ∉ ss → received_by c (run ss (removeListener c w)) = received_by c w)
  ∧ (received (after_dispatch message w)
     = received w ++ ((λ client, (client, stamped w message))
                        <$> take (handed message w) (clients (fakeSocket w)))
     ∧ (handed message w ≤ length (clients (fakeSocket w)))%nat
     ∧ (returns message w = true →
        received (after_dispatch message w)
        = received w ++ ((λ client, (client, stamped w message))
                           <$> clients (fakeSocket w)))
     ∧ (quiet w → returns message w = true)
     ∧ (returns message w = false →
        ∃ k thrower,
          handed message w = S k
          ∧ clients (fakeSocket w) !! k = Some thrower
          ∧ throws w thrower
              (received_by thrower w
               ++ replicate (length (filter (λ y, y = thrower)
                                       (take k (clients (fakeSocket w)))))
                    (stamped w message))
              (stamped w message) = true)
     ∧ clients (fakeSocket (addListener x w)) = clients (fakeSocket w) ++ [x]
     ∧ clients (fakeSocket (removeListener x w))
       = filter (λ client, client ≠ x) (clients (fakeSocket w))
     ∧ clients (fakeSocket (after_dispatch message w)) = clients (fakeSocket w)
     ∧ clients (fakeSocket (perform rnd r w).2) = clients (fakeSocket w)).
Proof.
  split_and!.
  - intros Hc. unfold removeListener. rewrite filter_all.
    + by destruct w as [api [cs n] rc ds t].
    + intros y Hy ->. contradiction.
  - intros Hss.
    destruct (unsubscribed_receives_nothing c ss (removeListener c w)) as [-> _];
      [apply removeListener_removes|done|done].
  - by rewrite after_dispatch_eq.
  - apply handed_le.
  - intros Hr. rewrite after_dispatch_eq. simpl.
    by rewrite returns_handed, take_all.
  - apply quiet_returns.
  - apply thrown_at.
  - done.
  - done.
  - by rewrite after_dispatch_eq.
  - by rewrite perform_fakeSocket.
Qed.

Lemma removeListener_and_delivery_order_witness :
  removeListener 8%nat world_abcd = world_abcd
  ∧ received_by 7%nat
      (run [ApiCall half (CreateList "home"); AddListener 8%nat;
            DispatchMessage (DeleteListMessage 0)]
         (removeListener 7%nat world_abcd))
    = received_by 7%nat world_abcd
  ∧ received (after_dispatch (DeleteListMessage 0) world_abcd)
    = received world_abcd
      ++ ((λ client, (client, stamped world_abcd (DeleteListMessage 0)))
            <$> clients (fakeSocket world_abcd))
  ∧ returns (DeleteListMessage 0) world_abcd = true
  ∧ ∃ k thrower,
      handed (DeleteListMessage 0) world_loud = S k
      ∧ clients (fakeSocket world_loud) !! k = Some thrower
      ∧ throws world_loud thrower
          (received_by thrower world_loud
           ++ replicate (length (filter (λ y, y = thrower)
                                   (take k (clients (fakeSocket world_loud)))))
                (stamped world_loud (DeleteListMessage 0)))
          (stamped world_loud (DeleteListMessage 0)) = true.
Proof.
  pose proof (removeListener_and_delivery_order 8%nat 8%nat world_abcd []
                (DeleteListMessage 0) half GetTodoLists) as (H1 & _ & _ & _ & H3 & H4 & _).
  pose proof (removeListener_and_delivery_order 7%nat 8%nat world_abcd
                [ApiCall half (CreateList "home"); AddListener 8%nat;
                 DispatchMessage (DeleteListMessage 0)]
                (DeleteListMessage 0) half GetTodoLists) as (_ & H2 & _).
  pose proof (removeListener_and_delivery_order 7%nat 8%nat world_loud []
                (DeleteListMessage 0) half GetTodoLists) as (_ & _ & _ & _ & _ & _ & H5 & _).
  split_and!.
  - apply H1. vm_compute. intros H. inversion H as [|? ? ? H']. inversion H'.
  - apply H2. intros H. repeat (inversion H as [|? ? ? H']; clear H; rename H' into H).
  - apply H3. reflexivity.
  - apply H4. intros client _ before m. reflexivity.
  - apply H5. reflexivity.
Defined.

(** ** C9: a client subscribed twice *)

Lemma subscriptions_step c s w :
  s ≠ AddListener c → s ≠ RemoveListener c →
  subscriptions c (step w s) = subscriptions c w.
Proof.
  intros Hadd Hrem. unfold subscriptions.
  destruct s as [x|x|m|rnd r]; simpl.
  - rewrite filter_app, filter_cons_False, filter_nil, app_nil_r by congruence. done.
  - rewrite list_filter_filter. f_equal. apply list_filter_iff.
    intros y. split; [tauto|]. intros ->. split; [done|]. congruence.
  - by rewrite after_dispatch_eq.
  - by rewrite perform_fakeSocket.
Qed.

Lemma subscriptions_run c ss w :
  AddListener c ∉ ss → RemoveListener c ∉ ss →
  subscriptions c (run ss w) = subscriptions c w.
Proof.
  revert w. induction ss as [|s ss IH]; intros w Hadd Hrem; [done|].
  apply not_elem_of_cons in Hadd as [? ?]. apply not_elem_of_cons in Hrem as [? ?].
  unfold run. simpl. fold (run ss (step w s)).
  rewrite IH by done. by apply subscriptions_step.
Qed.

(** C9. [addListener] does not look for the client in the active set: after
    two subscriptions of the same client the set ends with it twice; as long
    as the client is neither subscribed again nor removed, every dispatch that
    returns hands it the message once for each position it holds, so twice
    when it was not subscribed before, and a dispatch returns when no handler
    of a subscribed client throws; a dispatch that a handler stops hands it
    the message at most that many times; and one [removeListener] takes it
    out of the set altogether. *)
Theorem subscribed_twice_receives_twice
    (c : SocketClient) (w : World) (ss : list Step) (message : RawMessage) :
  let w2 := addListener c (addListener c w) in
  let w3 := run ss w2 in
  clients (fakeSocket w2) = clients (fakeSocket w) ++ [c; c]
  ∧ (AddListener c ∉ ss → RemoveListener c ∉ ss → returns message w3 = true →
     received_by c (after_dispatch message w3)
     = received_by c w3 ++ replicate (subscriptions c w + 2) (stamped w3 message))
  ∧ (c ∉ clients (fakeSocket w) → AddListener c ∉ ss → RemoveListener c ∉ ss →
     returns message w3 = true →
     received_by c (after_dispatch message w3)
     = received_by c w3 ++ [stamped w3 message; stamped w3 message])
  ∧ (quiet w3 → returns message w3 = true)
  ∧ (AddListener c ∉ ss → RemoveListener c ∉ ss →
     ∃ n, (n ≤ subscriptions c w + 2)%nat
          ∧ received_by c (after_dispatch message w3)
            = received_by c w3 ++ replicate n (stamped w3 message))
  ∧ c ∉ clients (fakeSocket (removeListener c w3)).
Proof.
  intros w2 w3.
  assert (subscriptions c w2 = (subscriptions c w + 2)%nat) as Hw2.
  { unfold subscriptions, w2. simpl. rewrite <- app_assoc. simpl.
    rewrite filter_app, length_app. f_equal.
    by rewrite !filter_cons_True. }
  split_and!.
  - subst w2. simpl. by rewrite <- app_assoc.
  - intros Hadd Hrem Hr. subst w3.
    by rewrite received_by_dispatchMessage, subscriptions_run, Hw2.
  - intros Hc Hadd Hrem Hr. subst w3.
    rewrite received_by_dispatchMessage, subscriptions_run, Hw2 by done.
    by rewrite subscriptions_0.
  - apply quiet_returns.
  - intros Hadd Hrem. eexists. split; [|apply received_by_after_dispatch].
    rewrite <- Hw2, <- (subscriptions_run c ss w2) by done.
    apply filter_take_length.
  - apply removeListener_removes.
Qed.

Lemma subscribed_twice_receives_twice_witness :
  let w3 := run [ApiCall half (CreateList "home")]
              (addListener 8%nat (addListener 8%nat world_abcd)) in
  received_by 8%nat (after_dispatch (DeleteListMessage 0) w3)
  = received_by 8%nat w3
    ++ [stamped w3 (DeleteListMessage 0); stamped w3 (DeleteListMessage 0)].
Proof.
  pose proof (subscribed_twice_receives_twice 8%nat world_abcd
                [ApiCall half (CreateList "home")] (DeleteListMessage 0))
    as (_ & _ & H & _).
  apply H.
  - vm_compute. intros Hin. inversion Hin as [|? ? ? Hin']. inversion Hin'.
  - intros Hin. inversion Hin as [|? ? ? Hin']. inversion Hin'.
  - intros Hin. inversion Hin as [|? ? ? Hin']. inversion Hin'.
  - reflexivity.
Defined.

(** ** C2: the sequence number *)

(** No call writes the counter of the socket. *)
Lemma sequenceId_constant ss w :
  socket_sequenceId (fakeSocket (run ss w)) = socket_sequenceId (fakeSocket w).
Proof.
  revert w. induction ss as [|s ss IH]; intros w; [done|].
  unfold run. simpl. fold (run ss (step w s)). rewrite IH.
  destruct s as [x|x|m|rnd r]; simpl; [done|done| |].
  - by rewrite after_dispatch_eq.
  - by rewrite perform_fakeSocket.
Qed.

(** C2, on the code. The counter starts at 0, and stays there: a client
    subscribed from the start is handed the notifications of three successful
    calls with the sequence numbers 0, 0, 0, where the claim has 0, 1, 2. *)
Theorem sequenceId_is_never_incremented :
  let w := run [AddListener 7%nat;
                ApiCall half (CreateList "work");
                ApiCall half (AddTodo 0 itemA);
                ApiCall half (EditTodo 0 0 itemB)] initial_world in
  socket_sequenceId (fakeSocket initial_world) = 0
  ∧ sequenceId <$> received_by 7%nat w = [0; 0; 0]
  ∧ raw <$> received_by 7%nat w
    = [CreateListMessage (mkTodoList (JsArray [] ∅) "work");
       AddTodoMessage 0 itemA;
       EditTodoMessage 0 0 itemB]
  ∧ socket_sequenceId (fakeSocket w) = 0.
Proof. vm_compute. done. Qed.

(** ** C10: moveTodo and its destination *)

Lemma actual_start_range len start : 0 <= len → 0 <= actual_start len start <= len.
Proof. intros Hlen. unfold actual_start. destruct (Z.ltb_spec start 0); lia. Qed.

(** The two splices, when the source index is valid: the position is taken
    out, and put back where [splice] places the adjusted destination in the
    shorter array. A hole comes back as [undefined]. *)
Lemma moved_valid_source (a : jsarray jsval) (sourceIndex destIndex : Z) :
  0 <= sourceIndex < arr_length a →
  let realDest := if destIndex <? sourceIndex then destIndex else destIndex - 1 in
  let position := Z.to_nat (actual_start (arr_length a - 1) realDest) in
  let rest := delete (Z.to_nat sourceIndex) (cells a) in
  ∃ c, cells a !! Z.to_nat sourceIndex = Some c
       ∧ moved a sourceIndex destIndex
         = JsArray (take position rest ++ [Some (from_option id VUndefined c)]
                      ++ drop position rest) (props a).
Proof.
  intros Hsrc realDest position rest. unfold arr_length in Hsrc.
  assert (is_Some (cells a !! Z.to_nat sourceIndex)) as [c Hc]
    by (apply lookup_lt_is_Some_2; lia).
  exists c. split; [done|].
  unfold moved, arr_splice, splice. simpl.
  assert (actual_start (Z.of_nat (length (cells a))) sourceIndex = sourceIndex) as ->
    by (unfold actual_start; destruct (Z.ltb_spec sourceIndex 0); lia).
  assert (actual_delete_count (Z.of_nat (length (cells a))) sourceIndex 1 = 1) as ->
    by (unfold actual_delete_count; lia).
  replace (Z.to_nat sourceIndex + Z.to_nat 1)%nat with (S (Z.to_nat sourceIndex)) by lia.
  rewrite <- delete_take_drop. fold rest.
  assert (take (Z.to_nat 1) (drop (Z.to_nat sourceIndex) (cells a)) = [c]) as ->.
  { rewrite <- (take_drop_middle _ _ _ Hc), drop_app_length'; [done|].
    rewrite length_take. lia. }
  assert (Z.of_nat (length rest) = arr_length a - 1) as ->.
  { unfold rest, arr_length. rewrite length_delete by eauto. lia. }
  fold realDest.
  pose proof (actual_start_range (arr_length a - 1) realDest) as Hp.
  unfold arr_length in Hp |- *.
  assert (actual_delete_count (Z.of_nat (length (cells a)) - 1)
            (actual_start (Z.of_nat (length (cells a)) - 1) realDest) 0 = 0) as ->
    by (unfold actual_delete_count; lia).
  simpl. unfold position, arr_length. by rewrite Nat.add_0_r.
Qed.

(** C10. [moveTodo] checks [listIndex] and [sourceIndex] only. With both
    valid and any [destIndex] at all, the promise is never rejected for an
    index: it is resolved with [true] when the draw succeeds and the dispatch
    returns, as it does when no handler of a subscribed client throws, and
    rejected with code 500 when the draw fails or a handler throws. With the
    draw passed, the item is put back at the position [splice] makes of
    [destIndex] (below the source) or [destIndex - 1] (otherwise) in the array
    without the item: counted from the end when negative, and clamped to
    [0, length]. The other positions keep their order and the other lists are
    not changed. *)
Theorem moveTodo_accepts_any_destIndex
    (rnd : Q) (listIndex sourceIndex destIndex : Z) (w : World) (l : TodoList) :
  nth_Z (todos (todoApi w)) listIndex = Some l →
  0 <= sourceIndex < arr_length (items l) →
  let realDest := if destIndex <? sourceIndex then destIndex else destIndex - 1 in
  let len := arr_length (items l) - 1 in
  let position :=
    Z.to_nat (if realDest <? 0 then Z.max (len + realDest) 0 else Z.min realDest len) in
  let rest := delete (Z.to_nat sourceIndex) (cells (items l)) in
  let result := call (moveTodo rnd listIndex sourceIndex destIndex) w in
  result.1 ≠ Some (Rejected (mkError 400 "index out of bound"))
  ∧ (result.1 = Some (if isSuccess (successRate (todoApi w)) rnd
                         && returns (MoveTodoMessage listIndex sourceIndex destIndex) w
                      then Resolved true else Rejected (mkError 500 "internal error"))
     ∧ (quiet w → returns (MoveTodoMessage listIndex sourceIndex destIndex) w = true))
  ∧ (isSuccess (successRate (todoApi w)) rnd = true →
     ∃ c, cells (items l) !! Z.to_nat sourceIndex = Some c
          ∧ todos (todoApi result.2)
            = <[Z.to_nat listIndex :=
                  mkTodoList
                    (JsArray (take position rest ++ [Some (from_option id VUndefined c)]
                                ++ drop position rest) (props (items l)))
                    (name l)]> (todos (todoApi w))).
Proof.
  intros Hl Hsrc realDest len position rest result.
  assert ((sourceIndex <? 0) || (sourceIndex >=? arr_length (items l)) = false) as Hok
    by (apply orb_false_iff; lia).
  unfold result. rewrite call_moveTodo. simpl. rewrite Hl.
  destruct (isSuccess _ _); simpl; rewrite ?Hok, ?returns_set_todos; simpl.
  - split_and!; [by destruct (returns _ _)|by destruct (returns _ _)
                 |apply quiet_returns|].
    intros _.
    destruct (moved_valid_source (items l) sourceIndex destIndex Hsrc) as (c & Hc & ->).
    exists c. split; [done|].
    rewrite after_dispatch_eq. simpl. unfold with_items.
    apply nth_Z_Some in Hl as [_ Hl].
    apply list_eq. intros i. rewrite list_lookup_alter, list_lookup_insert.
    case_decide; subst.
    2:{ destruct (decide _) as [[]|]; done. }
    destruct (decide _) as [[]|Hn]; [by rewrite Hl|].
    exfalso. apply Hn. split; [done|]. by eapply lookup_lt_Some.
  - split_and!; [done|done|apply quiet_returns|done].
Qed.

Lemma moveTodo_accepts_any_destIndex_witness :
  let result := call (moveTodo half 0 1 (-7)) world_abcd in
  result.1 = Some (Resolved true)
  ∧ todos (todoApi result.2) = [mkTodoList (dense [itemB; itemA; itemC; itemD]) "work"].
Proof.
  destruct (moveTodo_accepts_any_destIndex half 0 1 (-7) world_abcd list_abcd)
    as (_ & [Hr _] & Hs).
  - reflexivity.
  - vm_compute. by split.
  - split; [exact Hr|].
    destruct Hs as (c & Hc & ->); [reflexivity|].
    vm_compute in Hc. injection Hc as <-. reflexivity.
Defined.

(** ** C3: moveTodo with the destination on the source *)

(** C3, on the code. On the list [A, B, C, D] the two moves of the
    claim come out as it says, [B, C, A, D] and [D, A, B, C]; but
    [destIndex] equal to [sourceIndex] takes the branch [destIndex - 1]
    (the test is [destIndex < sourceIndex]), so the list does not stay as
    it is: moving 1 to 1 gives [B, A, C, D], and moving 0 to 0 inserts at
    -1, one before the end, and gives [B, C, A, D]. *)
Theorem moveTodo_to_its_own_index_moves_the_item :
  let after source dest := todos (todoApi (call (moveTodo half 0 source dest) world_abcd).2) in
  after 0 3 = [mkTodoList (dense [itemB; itemC; itemA; itemD]) "work"]
  ∧ after 3 0 = [mkTodoList (dense [itemD; itemA; itemB; itemC]) "work"]
  ∧ after 1 1 = [mkTodoList (dense [itemB; itemA; itemC; itemD]) "work"]
  ∧ after 0 0 = [mkTodoList (dense [itemB; itemC; itemA; itemD]) "work"]
  ∧ after 1 1 ≠ todos (todoApi world_abcd)
  ∧ (call (moveTodo half 0 1 1) world_abcd).1 = Some (Resolved true).
Proof. vm_compute. split_and!; done. Qed.

(** ** C1 and C4: a rejected index does not stop the call *)

(** The part of C1 that holds: with the draw passed, an index out of range is
    always answered with the envelope of code 400. *)
Lemma out_of_range_rejects_400 rnd r w :
  isSuccess (successRate (todoApi w)) rnd = true →
  indices_valid w r = false →
  (perform rnd r w).1 = Failure index_out_of_bound.
Proof.
  intros Hdraw Hbad.
  assert (∀ i, valid_list w i = false → nth_Z (todos (todoApi w)) i = None) as Hnone.
  { intros i Hi. apply nth_Z_None. unfold valid_list in Hi.
    apply andb_false_iff in Hi. lia. }
  assert (∀ i j l, valid_list w i && valid_item w i j = false →
                   nth_Z (todos (todoApi w)) i = Some l →
                   (j <? 0) || (j >=? arr_length (items l)) = true) as Hitem.
  { intros i j l Hij Hl. unfold valid_item in Hij. rewrite Hl in Hij.
    apply nth_Z_Some in Hl as [? Hl%lookup_lt_Some]. unfold valid_list in Hij.
    apply orb_true_iff. repeat (apply andb_false_iff in Hij as [Hij|Hij]); lia. }
  destruct r; simpl in Hbad |- *; unfold report; try discriminate.
  - rewrite call_deleteList, Hdraw. simpl.
    assert ((listIndex <? 0) || (listIndex >=? Z.of_nat (length (todos (todoApi w)))) = true)
      as -> by (unfold valid_list in Hbad; apply andb_false_iff in Hbad;
                apply orb_true_iff; lia).
    done.
  - rewrite call_addTodo. simpl. by rewrite Hdraw, Hnone.
  - rewrite call_removeTodo. simpl. rewrite Hdraw.
    destruct (nth_Z _ _) as [l|] eqn:E; [|done]. simpl. by erewrite Hitem.
  - rewrite call_moveTodo. simpl. rewrite Hdraw.
    destruct (nth_Z _ _) as [l|] eqn:E; [|done]. simpl. by erewrite Hitem.
  - rewrite call_editTodo. simpl. rewrite Hdraw.
    destruct (nth_Z _ _) as [l|] eqn:E; [|done]. simpl. by erewrite Hitem.
Qed.

(** Where the world is left alone: a list that does not exist cannot be
    reached by the methods on items (reading [items] of [undefined] throws,
    and the handler finds the promise settled). *)
Lemma no_such_list_no_effect rnd r w listIndex :
  valid_list w listIndex = false →
  (∃ item, r = AddTodo listIndex item) ∨ (∃ i, r = RemoveTodo listIndex i)
  ∨ (∃ i j, r = MoveTodo listIndex i j) ∨ (∃ i v, r = EditTodo listIndex i v) →
  (perform rnd r w).2 = w.
Proof.
  intros Hbad Hr.
  assert (nth_Z (todos (todoApi w)) listIndex = None) as Hnone.
  { apply nth_Z_None. unfold valid_list in Hbad. apply andb_false_iff in Hbad. lia. }
  destruct Hr as [[? ->]|[[? ->]|[(? & ? & ->)|(? & ? & ->)]]]; simpl; unfold report.
  - rewrite call_addTodo. simpl. rewrite Hnone. by destruct (isSuccess _ _).
  - rewrite call_removeTodo. simpl. rewrite Hnone. by destruct (isSuccess _ _).
  - rewrite call_moveTodo. simpl. rewrite Hnone. by destruct (isSuccess _ _).
  - rewrite call_editTodo. simpl. rewrite Hnone. by destruct (isSuccess _ _).
Qed.

(** C1, on the code. [reject] does not leave the callback, so after the
    answer 400 the method goes on with the index it has just refused. On the
    store [[A, B, C, D]]: [deleteList(-1)] deletes the list; [removeTodo(0,
    -1)] removes D; [moveTodo(0, -1, 0)] takes D out and puts it back before
    C; [editTodo(0, 4, B)] appends B. Each of them is answered with code 400,
    and each of them dispatches its notification. *)
Theorem rejected_index_is_still_used :
  let after r := todos (todoApi (perform half r world_abcd).2) in
  let answer r := (perform half r world_abcd).1 in
  let sent r := dispatched <$> dispatches (perform half r world_abcd).2 in
  (answer (DeleteList (-1)) = Failure (mkError 400 "index out of bound")
   ∧ after (DeleteList (-1)) = []
   ∧ sent (DeleteList (-1)) = [DeleteListMessage (-1)])
  ∧ (answer (RemoveTodo 0 (-1)) = Failure (mkError 400 "index out of bound")
     ∧ after (RemoveTodo 0 (-1)) = [mkTodoList (dense [itemA; itemB; itemC]) "work"]
     ∧ sent (RemoveTodo 0 (-1)) = [RemoveTodoMessage 0 (-1)])
  ∧ (answer (MoveTodo 0 (-1) 0) = Failure (mkError 400 "index out of bound")
     ∧ after (MoveTodo 0 (-1) 0)
       = [mkTodoList (dense [itemA; itemB; itemD; itemC]) "work"]
     ∧ sent (MoveTodo 0 (-1) 0) = [MoveTodoMessage 0 (-1) 0])
  ∧ (answer (EditTodo 0 4 itemB) = Failure (mkError 400 "index out of bound")
     ∧ after (EditTodo 0 4 itemB)
       = [mkTodoList (dense [itemA; itemB; itemC; itemD; itemB]) "work"]
     ∧ sent (EditTodo 0 4 itemB) = [EditTodoMessage 0 4 itemB])
  ∧ todos (todoApi world_abcd) = [mkTodoList (dense [itemA; itemB; itemC; itemD]) "work"].
Proof. vm_compute. split_and!; done. Qed.

(** The part of C4 that holds: a call that is reported as a success has
    dispatched the notification of its request, once, and the store at that
    moment was the store the call leaves. *)
Lemma success_dispatches_once rnd r w w' :
  perform rnd r w = (Success, w') →
  dispatches w'
  = dispatches w ++ ((λ m, mkDispatch m (todos (todoApi w'))) <$> notification r)
  ∧ received w'
    = received w ++ (m ← notification r;
                     (λ client, (client, stamped w m)) <$> clients (fakeSocket w)).
Proof.
  assert (∀ m ts, returns m (set_todos ts w) = true →
            after_dispatch m (set_todos ts w)
            = mkWorld (mkTodoApi (successRate (todoApi w)) ts) (fakeSocket w)
                (received w ++ ((λ client, (client, stamped w m))
                                  <$> clients (fakeSocket w)))
                (dispatches w ++ [mkDispatch m ts]) (throws w)) as Hgo.
  { intros m ts Hr. rewrite after_dispatch_eq, returns_handed by done. simpl.
    by rewrite take_all. }
  destruct r; simpl; unfold report.
  - rewrite call_getTodoLists. destruct (isSuccess _ _); intros [= <-].
    simpl. by rewrite !app_nil_r.
  - rewrite call_createList. simpl.
    destruct (isSuccess _ _); [destruct (_ <? _); [destruct (returns _ _) eqn:Hr|]|];
      intros [= <-].
    rewrite Hgo by done. simpl. by rewrite ?app_nil_r.
  - rewrite call_deleteList. cbv zeta.
    destruct (isSuccess _ _); [destruct (_ || _), (returns _ _) eqn:Hr|]; intros [= <-].
    rewrite Hgo by done. simpl. by rewrite ?app_nil_r.
  - rewrite call_addTodo. simpl.
    destruct (isSuccess _ _);
      [destruct (nth_Z _ _); [destruct (_ <? _); [destruct (returns _ _) eqn:Hr|]|]|];
      intros [= <-].
    rewrite Hgo by done. simpl. by rewrite ?app_nil_r.
  - rewrite call_removeTodo. simpl.
    destruct (isSuccess _ _);
      [destruct (nth_Z _ _); [destruct (_ || _), (returns _ _) eqn:Hr|]|]; intros [= <-].
    rewrite Hgo by done. simpl. by rewrite ?app_nil_r.
  - rewrite call_moveTodo. simpl.
    destruct (isSuccess _ _);
      [destruct (nth_Z _ _); [destruct (_ || _), (returns _ _) eqn:Hr|]|]; intros [= <-].
    rewrite Hgo by done. simpl. by rewrite ?app_nil_r.
  - rewrite call_editTodo. simpl.
    destruct (isSuccess _ _);
      [destruct (nth_Z _ _); [destruct (_ || _), (returns _ _) eqn:Hr|]|]; intros [= <-].
    rewrite Hgo by done. simpl. by rewrite ?app_nil_r.
Qed.

(** C4, on the code. A call that is reported as an error can have changed
    the store and dispatched: [editTodo(0, 6, B)] on [[A, B, C, D]] is
    answered with code 400, and leaves the items array with seven positions
    (two holes and B at 6), one dispatch in the log and the message in the
    hands of the subscribed client. *)
Theorem reported_error_with_effect :
  let result := perform half (EditTodo 0 6 itemB) world_abcd in
  result.1 = Failure (mkError 400 "index out of bound")
  ∧ todos (todoApi result.2)
    = [mkTodoList
         (JsArray [Some (VTodo itemA); Some (VTodo itemB); Some (VTodo itemC);
                   Some (VTodo itemD); None; None; Some (VTodo itemB)] ∅) "work"]
  ∧ todos (todoApi result.2) ≠ todos (todoApi world_abcd)
  ∧ dispatched <$> dispatches result.2 = [EditTodoMessage 0 6 itemB]
  ∧ dispatches world_abcd = []
  ∧ received_by 7%nat result.2 = [mkSocketMessage 0 (EditTodoMessage 0 6 itemB)]
  ∧ received_by 7%nat world_abcd = [].
Proof. vm_compute. split_and!; done. Qed.

(** ** C7: getTodoLists returns copies *)

Section HeapFacts.
Import Heap.
Implicit Types (h : heap) (l a : loc) (v : value) (cs : list (option value)).

(** *** Reading depends on the objects read only *)

Lemma decode_cells_mono {A : Type} (f g : value → option A) cs xs :
  decode_cells f cs = Some xs →
  (∀ v x, Some v ∈ cs → f v = Some x → g v = Some x) →
  decode_cells g cs = Some xs.
Proof.
  revert xs. induction cs as [|[v|] cs IH]; intros xs Hf Hfg; simpl in *.
  - done.
  - destruct (f v) as [x|] eqn:Ev; [|done]. simpl in Hf.
    destruct (decode_cells f cs) as [xs'|] eqn:Ecs; [|done].
    rewrite (Hfg v x) by (done || left). simpl.
    erewrite IH; [done|done|]. intros v' x' Hv'. apply Hfg. by right.
  - destruct (decode_cells f cs) as [xs'|] eqn:Ecs; [|done].
    erewrite IH; [done|done|]. intros v' x' Hv'. apply Hfg. by right.
Qed.

Lemma decode_props_mono {A : Type} (f g : value → option A) (ps : gmap Z value) m :
  decode_props f ps = Some m →
  (∀ k v x, ps !! k = Some v → f v = Some x → g v = Some x) →
  decode_props g ps = Some m.
Proof.
  unfold decode_props. intros Hf Hfg.
  destruct (decide (map_Forall _ ps)) as [Hall|]; [|done]. injection Hf as <-.
  rewrite decide_True.
  - f_equal. apply map_eq. intros k. rewrite !lookup_omap.
    destruct (ps !! k) as [v|] eqn:Ek; [|done]. simpl.
    destruct (Hall k v Ek) as [x Hx]. rewrite Hx. eauto.
  - intros k v Ek. destruct (Hall k v Ek) as [x Hx]. eauto.
Qed.

Lemma decode_array_mono {A : Type} (f g : value → option A) h h' a arr :
  decode_array f h a = Some arr →
  (∀ o, h !! a = Some o → h' !! a = Some o) →
  (∀ v x, (∃ o, h !! a = Some o ∧ match o with
                                   | ArrayObject cs ps => Some v ∈ cs ∨ ∃ k, ps !! k = Some v
                                   | _ => False
                                   end) →
          f v = Some x → g v = Some x) →
  decode_array g h' a = Some arr.
Proof.
  unfold decode_array. intros Hf Ha Hfg.
  destruct (h !! a) as [[| | |cs ps]|] eqn:Ea; try done.
  rewrite (Ha _ eq_refl).
  destruct (decode_cells f cs) as [xs|] eqn:Ecs; [|done]. simpl in Hf.
  destruct (decode_props f ps) as [m|] eqn:Eps; [|done].
  erewrite decode_cells_mono; [|done|]; simpl.
  - erewrite decode_props_mono; [done|done|]. intros k v x Hk. apply Hfg.
    eexists. split; [done|]. right. eauto.
  - intros v x Hv. apply Hfg. eexists. split; [done|]. by left.
Qed.

Lemma decode_item_mono h h' v x :
  decode_item h v = Some x →
  (∀ l o, v = Ref l → h !! l = Some o → h' !! l = Some o) →
  decode_item h' v = Some x.
Proof.
  destruct v as [|l]; [done|]. simpl. intros Hx Hl.
  destruct (h !! l) as [o|] eqn:El; [|done].
  by rewrite (Hl l o eq_refl El).
Qed.

(** *** Objects kept from one heap to another *)

Lemma kept_subseteq h h' l : h ⊆ h' → kept h h' l.
Proof. intros Hsub l' o _ Ho. by eapply lookup_weaken. Qed.

Lemma kept_step h h' l l' : kept h h' l → points_to h l l' → kept h h' l'.
Proof.
  intros Hk Hp l'' o Hr. apply Hk. by eapply rtc_l.
Qed.

Lemma kept_here h h' l : kept h h' l → ∀ o, h !! l = Some o → h' !! l = Some o.
Proof. intros Hk o. apply Hk. apply rtc_refl. Qed.

Lemma decode_items_kept h h' a arr :
  decode_array (decode_item h) h a = Some arr → kept h h' a →
  decode_array (decode_item h') h' a = Some arr.
Proof.
  intros Hd Hk. eapply decode_array_mono; [done|by apply kept_here|].
  intros v x (o & Ho & Hv) Hx. eapply decode_item_mono; [done|].
  intros l o' -> Hl. eapply kept_here; [|done].
  eapply kept_step; [done|]. exists o. split; [done|].
  by destruct o.
Qed.

Lemma decode_list_kept h h' v tl :
  decode_list h v = Some tl →
  (∀ l, v = Ref l → kept h h' l) →
  decode_list h' v = Some tl.
Proof.
  destruct v as [|l]; [done|]. simpl. intros Hd Hk. specialize (Hk l eq_refl).
  destruct (h !! l) as [[| |a n|]|] eqn:El; try done.
  rewrite (kept_here _ _ _ Hk _ El).
  destruct (decode_array (decode_item h) h a) as [arr|] eqn:Ea; [|done].
  erewrite decode_items_kept; [done|done|].
  eapply kept_step; [done|]. by exists (ListObject a n).
Qed.

Lemma decode_store_kept h h' todos ts :
  decode_store h todos = Some ts → kept h h' todos →
  decode_store h' todos = Some ts.
Proof.
  unfold decode_store. intros Hd Hk.
  destruct (decode_array (decode_list h) h todos) as [arr|] eqn:Ea; [|done].
  erewrite decode_array_mono; [done|done|by apply kept_here|].
  intros v x (o & Ho & Hv) Hx. eapply decode_list_kept; [done|].
  intros l ->. eapply kept_step; [done|]. exists o. split; [done|].
  by destruct o.
Qed.
(** *** Allocation *)

Lemma grows_refl h : grows h h.
Proof. split; [done|]. intros l l' Hl (o & Ho & _). congruence. Qed.

Lemma alloc_spec h0 h o :
  grows h0 h → (∀ l', refers o l' → h0 !! l' = None) →
  ∃ l h', alloc o h = Some (l, h') ∧ h ⊆ h' ∧ grows h0 h'
          ∧ h0 !! l = None ∧ h' !! l = Some o.
Proof.
  intros [Hsub Hnew] Ho.
  assert (h !! fresh (dom h) = None) as Hfresh
    by (apply not_elem_of_dom, is_fresh).
  exists (fresh (dom h)), (<[fresh (dom h) := o]> h).
  split_and!.
  - done.
  - by apply insert_subseteq.
  - split; [by etrans; [|apply insert_subseteq]|].
    intros l l' Hl (o' & Ho' & Hr).
    destruct (decide (fresh (dom h) = l)) as [<-|Hne].
    + rewrite lookup_insert_eq in Ho'. injection Ho' as <-. by apply Ho.
    + rewrite lookup_insert_ne in Ho' by done. apply (Hnew l l' Hl). by exists o'.
  - by eapply lookup_weaken_None.
  - by rewrite lookup_insert_eq.
Qed.

Lemma spread_object_spec h0 h v x :
  grows h0 h → decode_item h v = Some x →
  ∃ l' h', spread_object v h = Some (Ref l', h') ∧ h ⊆ h' ∧ grows h0 h'
           ∧ h0 !! l' = None ∧ decode_item h' (Ref l') = Some (copy_object x).
Proof.
  intros Hg Hx. destruct v as [|l]; simpl in Hx.
  - injection Hx as <-.
    destruct (alloc_spec h0 h EmptyObject Hg) as (l' & h' & Ha & ? & ? & ? & Hl');
      [done|].
    exists l', h'. unfold spread_object. cbv [mbind H_bind hbind mret H_ret hret].
    rewrite Ha. simpl. by rewrite Hl'.
  - destruct (h !! l) as [[d b| | |]|] eqn:El; try done; injection Hx as <-.
    + destruct (alloc_spec h0 h (TodoObject d b) Hg) as (l' & h' & Ha & ? & ? & ? & Hl');
        [done|].
      exists l', h'. unfold spread_object, read.
      cbv [mbind H_bind hbind mret H_ret hret]. rewrite El, Ha. simpl. by rewrite Hl'.
    + destruct (alloc_spec h0 h EmptyObject Hg) as (l' & h' & Ha & ? & ? & ? & Hl');
        [done|].
      exists l', h'. unfold spread_object, read.
      cbv [mbind H_bind hbind mret H_ret hret]. rewrite El, Ha. simpl. by rewrite Hl'.
Qed.

(** *** [map], for a callback that returns a new object *)

Section Map.
Context {A B : Type} (dec : heap → value → option A) (dec' : heap → value → option B).
Context (g : A → B) (f : value → H value) (h0 : heap).
Hypothesis dec_mono : ∀ h h' v x, dec h v = Some x → h ⊆ h' → dec h' v = Some x.
Hypothesis dec'_mono : ∀ h h' v y, dec' h v = Some y → h ⊆ h' → dec' h' v = Some y.
Hypothesis f_spec : ∀ h v x,
  grows h0 h → dec h v = Some x →
  ∃ l' h', f v h = Some (Ref l', h') ∧ h ⊆ h' ∧ grows h0 h'
           ∧ h0 !! l' = None ∧ dec' h' (Ref l') = Some (g x).

Lemma map_cells_spec h cs xs :
  grows h0 h → decode_cells (dec h) cs = Some xs →
  ∃ cs' h', map_cells f cs h = Some (cs', h') ∧ h ⊆ h' ∧ grows h0 h'
            ∧ (∀ l, Some (Ref l) ∈ cs' → h0 !! l = None)
            ∧ decode_cells (dec' h') cs' = Some (fmap (M:=option) g <$> xs).
Proof.
  revert h xs. induction cs as [|[v|] cs IH]; intros h xs Hg Hxs; simpl in Hxs.
  - injection Hxs as <-. exists [], h. split_and!; try done.
    intros l Hl. by apply not_elem_of_nil in Hl.
  - destruct (dec h v) as [x|] eqn:Ev; [|done]. simpl in Hxs.
    destruct (decode_cells (dec h) cs) as [xs'|] eqn:Ecs; [|done].
    injection Hxs as <-.
    destruct (f_spec h v x Hg Ev) as (l1 & h1 & Hf & Hsub1 & Hg1 & Hl1 & Hd1).
    destruct (IH h1 xs' Hg1) as (cs' & h' & Hm & Hsub & Hg' & Hnew & Hd').
    { eapply decode_cells_mono; [done|]. intros; by eapply dec_mono. }
    exists (Some (Ref l1) :: cs'), h'. split_and!.
    + simpl. cbv [mbind H_bind hbind mret H_ret hret]. by rewrite Hf, Hm.
    + by etrans.
    + done.
    + intros l [[= ->]|Hl]%elem_of_cons; [done|by apply Hnew].
    + simpl. rewrite (dec'_mono h1 h' _ _ Hd1 Hsub). simpl. by rewrite Hd'.
  - destruct (decode_cells (dec h) cs) as [xs'|] eqn:Ecs; [|done].
    injection Hxs as <-.
    destruct (IH h xs' Hg Ecs) as (cs' & h' & Hm & Hsub & Hg' & Hnew & Hd').
    exists (None :: cs'), h'. split_and!; try done.
    + simpl. cbv [mbind H_bind hbind mret H_ret hret]. by rewrite Hm.
    + intros l [[=]|Hl]%elem_of_cons. by apply Hnew.
    + simpl. by rewrite Hd'.
Qed.

Lemma array_map_spec h a arr :
  grows h0 h → decode_array (dec h) h a = Some arr →
  ∃ a' h', array_map f a h = Some (a', h') ∧ h ⊆ h' ∧ grows h0 h'
           ∧ h0 !! a' = None
           ∧ decode_array (dec' h') h' a' = Some (arr_map g arr).
Proof.
  intros Hg Harr. unfold decode_array in Harr.
  destruct (h !! a) as [[| | |cs ps]|] eqn:Ea; try done.
  destruct (decode_cells (dec h) cs) as [xs|] eqn:Ecs; [|done]. simpl in Harr.
  destruct (decode_props (dec h) ps) as [m|] eqn:Eps; [|done].
  injection Harr as <-.
  destruct (map_cells_spec h cs xs Hg Ecs) as (cs' & h1 & Hm & Hsub1 & Hg1 & Hnew & Hd1).
  destruct (alloc_spec h0 h1 (ArrayObject cs' ∅) Hg1)
    as (a' & h' & Ha & Hsub & Hg' & Ha0 & Ha').
  { intros l' [Hl'|[k Hk]]; [by apply Hnew|]. by rewrite lookup_empty in Hk. }
  exists a', h'. split_and!; try done.
  - unfold array_map, read. cbv [mbind H_bind hbind mret H_ret hret].
    by rewrite Ea, Hm.
  - by etrans.
  - unfold decode_array. rewrite Ha'.
    erewrite decode_cells_mono; [|exact Hd1|intros; by eapply dec'_mono]. simpl.
    unfold decode_props. rewrite decide_True by apply map_Forall_empty.
    by rewrite omap_empty.
Qed.
End Map.
(** *** The method *)

Lemma decode_item_subseteq h h' v x :
  decode_item h v = Some x → h ⊆ h' → decode_item h' v = Some x.
Proof.
  intros Hx Hsub. eapply decode_item_mono; [done|].
  intros l o _ Hl. by eapply lookup_weaken.
Qed.

Lemma decode_list_subseteq h h' v tl :
  decode_list h v = Some tl → h ⊆ h' → decode_list h' v = Some tl.
Proof.
  intros Htl Hsub. eapply decode_list_kept; [done|].
  intros l _. by apply kept_subseteq.
Qed.

Lemma copy_todolist_spec h0 h v tl :
  grows h0 h → decode_list h v = Some tl →
  ∃ l' h', alloc_todolist_copy v h = Some (Ref l', h') ∧ h ⊆ h' ∧ grows h0 h'
           ∧ h0 !! l' = None ∧ decode_list h' (Ref l') = Some (copy_todolist tl).
Proof.
  intros Hg Htl. destruct v as [|l]; [done|]. simpl in Htl.
  destruct (h !! l) as [[| |a n|]|] eqn:El; try done.
  destruct (decode_array (decode_item h) h a) as [arr|] eqn:Ea; [|done].
  injection Htl as <-.
  destruct (array_map_spec decode_item decode_item copy_object spread_object h0
              decode_item_subseteq decode_item_subseteq
              (λ h v x, spread_object_spec h0 h v x) h a arr Hg Ea)
    as (a' & h1 & Hm & Hsub1 & Hg1 & Ha0 & Hd1).
  destruct (alloc_spec h0 h1 (ListObject a' n) Hg1)
    as (l' & h' & Hal & Hsub & Hg' & Hl0 & Hl').
  { by intros ? ->. }
  exists l', h'. split_and!; try done.
  - unfold alloc_todolist_copy, read. cbv [mbind H_bind hbind mret H_ret hret].
    by rewrite El, Hm, Hal.
  - by etrans.
  - simpl. rewrite Hl'.
    erewrite decode_items_kept; [done|exact Hd1|by apply kept_subseteq].
Qed.

Lemma mapM_id_fmap {A B : Type} (g : A → B) (xs : list (option A)) (ys : list A) :
  mapM id xs = Some ys → mapM id (fmap (M:=option) g <$> xs) = Some (g <$> ys).
Proof.
  rewrite !mapM_Some. intros Hxs. apply Forall2_fmap.
  eapply Forall2_impl; [done|]. by intros [x|] y [= <-].
Qed.

Lemma getTodoLists_spec h0 h todos ts successRate rnd :
  grows h0 h → decode_store h todos = Some ts → isSuccess successRate rnd = true →
  ∃ response h', Heap.getTodoLists successRate rnd todos h = Some (Resolved response, h')
                 ∧ h ⊆ h' ∧ grows h0 h' ∧ h0 !! response = None
                 ∧ decode_store h' response = Some (copy_todolist <$> ts).
Proof.
  intros Hg Hts Hdraw. unfold decode_store in Hts.
  destruct (decode_array (decode_list h) h todos) as [arr|] eqn:Ea; [|done].
  simpl in Hts. destruct (decide (props arr = ∅)) as [Hps|]; [|done].
  destruct (array_map_spec decode_list decode_list copy_todolist alloc_todolist_copy h0
              decode_list_subseteq decode_list_subseteq
              (λ h v x, copy_todolist_spec h0 h v x) h todos arr Hg Ea)
    as (a' & h' & Hm & Hsub & Hg' & Ha0 & Hd).
  exists a', h'. split_and!; try done.
  - unfold Heap.getTodoLists. rewrite Hdraw.
    cbv [mbind H_bind hbind mret H_ret hret]. by rewrite Hm.
  - unfold decode_store. rewrite Hd. simpl.
    rewrite decide_True by done. by apply mapM_id_fmap.
Qed.

(** What has grown out of [h0] does not lead back into [h0]. *)
Lemma grows_reachable h0 h l l' :
  grows h0 h → h0 !! l = None → reachable h l l' → h0 !! l' = None.
Proof.
  intros [_ Hnew] Hl Hr. induction Hr as [|l1 l2 l3 Hstep _ IH]; [done|].
  apply IH. by eapply Hnew.
Qed.

End HeapFacts.

(** C7. With the store laid out in a heap [h] as the lists [ts], a
    successful [getTodoLists]
    - writes no object that exists (the heap only grows), and answers
      the same as the method on values, which leaves the world as it is;
    - is resolved with an array that reads as the copy of [ts];
    - returns new objects only: no object that can be reached from the
      response existed before the call, so none is an object of the store,
      and a caller that writes to what it reaches through the response
      keeps every object of the store;
    - and whatever is done afterwards to the heap that keeps the objects
      of the store, the store still reads as [ts] and a second successful
      call is resolved with an array that reads as the same copy of [ts]. *)
Theorem getTodoLists_returns_copies
    (h : Heap.heap) (todos : Heap.loc) (ts : list TodoList) (successRate rnd rnd' : Q) :
  Heap.decode_store h todos = Some ts →
  isSuccess successRate rnd = true →
  isSuccess successRate rnd' = true →
  ∃ response h1,
    Heap.getTodoLists successRate rnd todos h = Some (Resolved response, h1)
    ∧ h ⊆ h1
    ∧ (∀ w, todoApi w = mkTodoApi successRate ts →
            call (getTodoLists rnd) w = (Some (Resolved (copy_todolist <$> ts)), w))
    ∧ Heap.decode_store h1 response = Some (copy_todolist <$> ts)
    ∧ (∀ l, Heap.reachable h1 response l → h !! l = None)
    ∧ (∀ h2, (∀ l, ¬ Heap.reachable h1 response l → h2 !! l = h1 !! l) →
             Heap.kept h h2 todos)
    ∧ ∀ h2, Heap.kept h h2 todos →
        Heap.decode_store h2 todos = Some ts
        ∧ ∃ response' h3,
            Heap.getTodoLists successRate rnd' todos h2 = Some (Resolved response', h3)
            ∧ Heap.decode_store h3 response' = Some (copy_todolist <$> ts).
Proof.
  intros Hts Hdraw Hdraw'.
  destruct (getTodoLists_spec h h todos ts successRate rnd (grows_refl h) Hts Hdraw)
    as (response & h1 & Hcall & Hsub & Hg & Hnew & Hcopy).
  exists response, h1. split_and!; try done.
  - intros w Hw. by rewrite call_getTodoLists, Hw; simpl; rewrite Hdraw.
  - intros l. by apply grows_reachable.
  - intros h2 Hh2 l o _ Hl. rewrite Hh2.
    + by eapply lookup_weaken.
    + intros Hr. apply (grows_reachable h h1 response l Hg Hnew) in Hr. congruence.
  - intros h2 Hkept.
    assert (Heap.decode_store h2 todos = Some ts) as Hts2
      by by eapply decode_store_kept.
    split; [done|].
    destruct (getTodoLists_spec h2 h2 todos ts successRate rnd' (grows_refl h2) Hts2 Hdraw')
      as (response' & h3 & Hcall' & _ & _ & _ & Hcopy').
    by exists response', h3.
Qed.

Lemma getTodoLists_returns_copies_witness :
  ∃ response h1,
    Heap.getTodoLists 1%Q half 1%positive Heap.sample_heap = Some (Resolved response, h1)
    ∧ Heap.decode_store h1 response
      = Some [mkTodoList (JsArray [Some (VTodo (mkTodo "A" false))] ∅) "work"].
Proof.
  destruct (getTodoLists_returns_copies Heap.sample_heap 1%positive
              [mkTodoList (JsArray [Some (VTodo (mkTodo "A" false))] ∅) "work"]
              1%Q half three_quarters)
    as (response & h1 & Hcall & _ & _ & Hcopy & _).
  - vm_compute. reflexivity.
  - reflexivity.
  - reflexivity.
  - exists response, h1. split; [exact Hcall|exact Hcopy].
Defined.

(** * Further properties of the methods *)

(** ** Helpers *)

Lemma splice_one_valid {X : Type} (l : list X) (i : Z) :
  0 <= i < Z.of_nat (length l) → (splice l i 1 []).2 = delete (Z.to_nat i) l.
Proof.
  intros Hi. unfold splice. simpl.
  assert (actual_start (Z.of_nat (length l)) i = i) as ->
    by (unfold actual_start; destruct (Z.ltb_spec i 0); lia).
  assert (actual_delete_count (Z.of_nat (length l)) i 1 = 1) as ->
    by (unfold actual_delete_count; lia).
  replace (Z.to_nat i + Z.to_nat 1)%nat with (S (Z.to_nat i)) by lia.
  by rewrite delete_take_drop.
Qed.

Lemma arr_splice_one_valid (a : jsarray jsval) (i : Z) :
  0 <= i < arr_length a →
  (arr_splice a i 1 []).2 = JsArray (delete (Z.to_nat i) (cells a)) (props a).
Proof.
  intros Hi. unfold arr_splice.
  pose proof (splice_one_valid (cells a) i Hi) as Hs.
  change (Some <$> []) with (@nil (option jsval)).
  destruct (splice (cells a) i 1 []) as [removed rest].
  simpl in Hs. by rewrite Hs.
Qed.

Lemma with_items_insert ts listIndex a l :
  nth_Z ts listIndex = Some l →
  with_items ts listIndex a = <[Z.to_nat listIndex := mkTodoList a (name l)]> ts.
Proof.
  intros [_ Hl]%nth_Z_Some. unfold with_items.
  apply list_eq. intros i. rewrite list_lookup_alter, list_lookup_insert.
  case_decide; subst.
  - destruct (decide _) as [[]|Hn]; [by rewrite Hl|].
    exfalso. apply Hn. split; [done|]. by eapply lookup_lt_Some.
  - destruct (decide _) as [[]|]; done.
Qed.

Lemma with_items_same ts listIndex l :
  nth_Z ts listIndex = Some l → with_items ts listIndex (items l) = ts.
Proof.
  intros Hl. rewrite (with_items_insert _ _ _ l Hl).
  apply nth_Z_Some in Hl as [_ Hl]. apply list_insert_id.
  rewrite Hl. by destruct l.
Qed.

Lemma bad_index (i len : Z) :
  (i <? 0) || (i >=? len) = negb ((0 <=? i) && (i <? len)).
Proof.
  destruct (Z.ltb_spec i 0), (Z.leb_spec 0 i), (Z.ltb_spec i len), (Z.geb_spec i len);
    simpl; try reflexivity; lia.
Qed.

Lemma valid_list_Some w i :
  valid_list w i = true ↔ ∃ l, nth_Z (todos (todoApi w)) i = Some l.
Proof.
  unfold valid_list. split.
  - intros H. destruct (nth_Z (todos (todoApi w)) i) as [l|] eqn:E; [eauto|].
    apply nth_Z_None in E. apply andb_true_iff in H. lia.
  - intros [l [? Hl%lookup_lt_Some]%nth_Z_Some]. apply andb_true_iff. lia.
Qed.

Lemma valid_list_None w i :
  valid_list w i = false ↔ nth_Z (todos (todoApi w)) i = None.
Proof.
  destruct (valid_list w i) eqn:E.
  - apply valid_list_Some in E as [l ->]. split; discriminate.
  - split; [|done]. intros _.
    destruct (nth_Z (todos (todoApi w)) i) as [l|] eqn:El; [|done].
    assert (valid_list w i = true) by (apply valid_list_Some; eauto). congruence.
Qed.

(** ** The methods when they go through *)

(** X1. [deleteList] with the draw passed and a valid index takes exactly the
    list at that index out of the store: the lists before it keep their
    index, the lists after it move down by one, and the notification carries
    the index. The promise is resolved with [true] when the dispatch returns,
    as it does when no handler of a subscribed client throws, and rejected
    with code 500 when a handler throws. *)
Theorem deleteList_deletes (rnd : Q) (listIndex : Z) (w : World) :
  isSuccess (successRate (todoApi w)) rnd = true →
  0 <= listIndex < Z.of_nat (length (todos (todoApi w))) →
  let result := call (deleteList rnd listIndex) w in
  result.1 = Some (if returns (DeleteListMessage listIndex) w
                   then Resolved true else Rejected (mkError 500 "internal error"))
  ∧ (quiet w → result.1 = Some (Resolved true))
  ∧ todos (todoApi result.2) = delete (Z.to_nat listIndex) (todos (todoApi w))
  ∧ (∀ j, 0 <= j < listIndex →
          nth_Z (todos (todoApi result.2)) j = nth_Z (todos (todoApi w)) j)
  ∧ (∀ j, listIndex <= j →
          nth_Z (todos (todoApi result.2)) j = nth_Z (todos (todoApi w)) (j + 1))
  ∧ dispatched <$> dispatches result.2
    = (dispatched <$> dispatches w) ++ [DeleteListMessage listIndex].
Proof.
  intros Hdraw Hi result. unfold result. rewrite call_deleteList. cbv zeta.
  rewrite Hdraw, bad_index. destruct (Z.leb_spec 0 listIndex); [|lia].
  destruct (Z.ltb_spec listIndex (Z.of_nat (length (todos (todoApi w))))); [|lia].
  rewrite splice_one_valid, after_dispatch_eq, returns_set_todos by done. simpl.
  split_and!.
  - done.
  - intros Hq. by rewrite quiet_returns.
  - done.
  - intros j Hj. unfold nth_Z.
    destruct (Z.ltb_spec j 0); [lia|]. apply list_lookup_delete_lt. lia.
  - intros j Hj. unfold nth_Z.
    destruct (Z.ltb_spec j 0), (Z.ltb_spec (j + 1) 0); try lia.
    rewrite list_lookup_delete_ge by lia. f_equal. lia.
  - by rewrite fmap_app.
Qed.

Lemma deleteList_deletes_witness :
  todos (todoApi (call (deleteList half 0) world_abcd).2) = []
  ∧ (call (deleteList half 0) world_abcd).1 = Some (Resolved true)
  ∧ (call (deleteList half 0) world_loud).1
    = Some (Rejected (mkError 500 "internal error"))
  ∧ todos (todoApi (call (deleteList half 0) world_loud).2) = [].
Proof.
  destruct (deleteList_deletes half 0 world_abcd) as (Ha & _ & H & _);
    [reflexivity|vm_compute; by split|].
  destruct (deleteList_deletes half 0 world_loud) as (Ha' & _ & H' & _);
    [reflexivity|vm_compute; by split|].
  split_and!; [exact H|exact Ha|exact Ha'|exact H'].
Defined.

(** X2. [addTodo] with the draw passed, a valid list and room in its items
    array puts the item after the last position of that list; the positions
    that were there stay, and the other lists are not touched. The promise is
    resolved with [true] when the dispatch returns, as it does when no
    handler of a subscribed client throws, and rejected with code 500 when a
    handler throws. *)
Theorem addTodo_appends (rnd : Q) (listIndex : Z) (item : Todo) (w : World) (l : TodoList) :
  isSuccess (successRate (todoApi w)) rnd = true →
  nth_Z (todos (todoApi w)) listIndex = Some l →
  arr_length (items l) < 2 ^ 32 - 1 →
  let result := call (addTodo rnd listIndex item) w in
  result.1 = Some (if returns (AddTodoMessage listIndex item) w
                   then Resolved true else Rejected (mkError 500 "internal error"))
  ∧ (quiet w → result.1 = Some (Resolved true))
  ∧ todos (todoApi result.2)
    = <[Z.to_nat listIndex :=
          mkTodoList (JsArray (cells (items l) ++ [Some (VTodo item)]) (props (items l)))
                     (name l)]> (todos (todoApi w))
  ∧ dispatched <$> dispatches result.2
    = (dispatched <$> dispatches w) ++ [AddTodoMessage listIndex item].
Proof.
  intros Hdraw Hl Hlen result. unfold result. rewrite call_addTodo. simpl.
  rewrite Hdraw, Hl. unfold arr_push.
  destruct (Z.ltb_spec (arr_length (items l)) (2 ^ 32 - 1)); [|lia].
  rewrite after_dispatch_eq, returns_set_todos. simpl.
  split_and!; [done| | |by rewrite fmap_app].
  - intros Hq. by rewrite quiet_returns.
  - by apply with_items_insert.
Qed.

Lemma addTodo_appends_witness :
  todos (todoApi (call (addTodo half 0 itemA) world_abcd).2)
  = [mkTodoList (dense [itemA; itemB; itemC; itemD; itemA]) "work"].
Proof.
  destruct (addTodo_appends half 0 itemA world_abcd list_abcd) as (_ & _ & H & _).
  - reflexivity.
  - reflexivity.
  - vm_compute. reflexivity.
  - exact H.
Defined.

(** X3. [removeTodo] with the draw passed and both indices valid takes
    exactly the position [todoIndex] out of the items of that list; the other
    positions keep their order, and the other lists are not touched. The
    promise is resolved with [true] when the dispatch returns, as it does
    when no handler of a subscribed client throws, and rejected with code 500
    when a handler throws. *)
Theorem removeTodo_removes (rnd : Q) (listIndex todoIndex : Z) (w : World) (l : TodoList) :
  isSuccess (successRate (todoApi w)) rnd = true →
  nth_Z (todos (todoApi w)) listIndex = Some l →
  0 <= todoIndex < arr_length (items l) →
  let result := call (removeTodo rnd listIndex todoIndex) w in
  result.1 = Some (if returns (RemoveTodoMessage listIndex todoIndex) w
                   then Resolved true else Rejected (mkError 500 "internal error"))
  ∧ (quiet w → result.1 = Some (Resolved true))
  ∧ todos (todoApi result.2)
    = <[Z.to_nat listIndex :=
          mkTodoList (JsArray (delete (Z.to_nat todoIndex) (cells (items l)))
                              (props (items l)))
                     (name l)]> (todos (todoApi w))
  ∧ dispatched <$> dispatches result.2
    = (dispatched <$> dispatches w) ++ [RemoveTodoMessage listIndex todoIndex].
Proof.
  intros Hdraw Hl Hj result. unfold result. rewrite call_removeTodo. cbv zeta.
  rewrite Hdraw, Hl, bad_index, arr_splice_one_valid, after_dispatch_eq,
    returns_set_todos by done.
  destruct (Z.leb_spec 0 todoIndex); [|lia].
  destruct (Z.ltb_spec todoIndex (arr_length (items l))); [|lia].
  simpl. split_and!; [done| | |by rewrite fmap_app].
  - intros Hq. by rewrite quiet_returns.
  - by apply with_items_insert.
Qed.

Lemma removeTodo_removes_witness :
  todos (todoApi (call (removeTodo half 0 1) world_abcd).2)
  = [mkTodoList (dense [itemA; itemC; itemD]) "work"].
Proof.
  destruct (removeTodo_removes half 0 1 world_abcd list_abcd) as (_ & _ & H & _).
  - reflexivity.
  - reflexivity.
  - vm_compute. by split.
  - exact H.
Defined.

(** X4. [editTodo] with the draw passed and both indices valid replaces the
    position [itemIndex] by [newValue]; the array keeps its length and its
    other positions, and the other lists are not touched. The promise is
    resolved with [true] when the dispatch returns, as it does when no
    handler of a subscribed client throws, and rejected with code 500 when a
    handler throws. *)
Theorem editTodo_replaces
    (rnd : Q) (listIndex itemIndex : Z) (newValue : Todo) (w : World) (l : TodoList) :
  isSuccess (successRate (todoApi w)) rnd = true →
  nth_Z (todos (todoApi w)) listIndex = Some l →
  0 <= itemIndex < arr_length (items l) →
  arr_length (items l) <= 2 ^ 32 - 1 →
  let result := call (editTodo rnd listIndex itemIndex newValue) w in
  result.1 = Some (if returns (EditTodoMessage listIndex itemIndex newValue) w
                   then Resolved true else Rejected (mkError 500 "internal error"))
  ∧ (quiet w → result.1 = Some (Resolved true))
  ∧ todos (todoApi result.2)
    = <[Z.to_nat listIndex :=
          mkTodoList (JsArray (<[Z.to_nat itemIndex := Some (VTodo newValue)]>
                                 (cells (items l)))
                              (props (items l)))
                     (name l)]> (todos (todoApi w))
  ∧ dispatched <$> dispatches result.2
    = (dispatched <$> dispatches w) ++ [EditTodoMessage listIndex itemIndex newValue].
Proof.
  intros Hdraw Hl Hj Hmax result. unfold result. rewrite call_editTodo. simpl.
  rewrite Hdraw, Hl, bad_index.
  destruct (Z.leb_spec 0 itemIndex); [|lia].
  destruct (Z.ltb_spec itemIndex (arr_length (items l))); [|lia].
  rewrite after_dispatch_eq, returns_set_todos. simpl.
  split_and!; [done|intros Hq; by rewrite quiet_returns| |by rewrite fmap_app].
  rewrite (with_items_insert _ _ _ l Hl). do 2 f_equal.
  unfold arr_set, is_array_index.
  destruct (Z.leb_spec 0 itemIndex), (Z.ltb_spec itemIndex (2 ^ 32 - 1)); try lia.
  simpl. by destruct (Z.ltb_spec itemIndex (arr_length (items l))); [|lia].
Qed.

Lemma editTodo_replaces_witness :
  todos (todoApi (call (editTodo half 0 1 itemD) world_abcd).2)
  = [mkTodoList (dense [itemA; itemD; itemC; itemD]) "work"].
Proof.
  destruct (editTodo_replaces half 0 1 itemD world_abcd list_abcd) as (_ & _ & H & _).
  - reflexivity.
  - reflexivity.
  - vm_compute. by split.
  - vm_compute. discriminate.
  - exact H.
Defined.

(** ** How a call is answered *)

(** The answer of every request, by the draw, the index checks, the room
    left in the array and the outcome of the dispatch. *)
Lemma report_table rnd r w :
  (perform rnd r w).1 =
  if isSuccess (successRate (todoApi w)) rnd then
    if indices_valid w r then
      if within_limit w r && delivered w r then Success
      else match r with CreateList _ => Pending | _ => Failure internal_error end
    else Failure index_out_of_bound
  else Failure internal_error.
Proof.
  assert (∀ i j l returned w', nth_Z (todos (todoApi w)) i = Some l →
            (report (checked ((j <? 0) || (j >=? arr_length (items l))) returned,
                     w')).1
            = if valid_list w i && valid_item w i j
              then if returned then Success else Failure internal_error
              else Failure index_out_of_bound) as Hitem.
  { intros i j l returned w' Hl. unfold valid_item. rewrite Hl, bad_index.
    assert (valid_list w i = true) as -> by (apply valid_list_Some; eauto).
    simpl. by destruct (_ && _), returned. }
  destruct r; unfold delivered; simpl; rewrite ?andb_true_r.
  - rewrite call_getTodoLists. by destruct (isSuccess _ _).
  - rewrite call_createList. simpl.
    destruct (isSuccess _ _); [|done]. rewrite returns_set_todos.
    by destruct (_ <? _), (returns _ _).
  - rewrite call_deleteList. cbv zeta. destruct (isSuccess _ _); [|done].
    rewrite bad_index, returns_set_todos. unfold valid_list. simpl.
    by destruct (_ && _), (returns _ _).
  - rewrite call_addTodo. simpl. destruct (isSuccess _ _); [|done].
    destruct (nth_Z _ _) as [l|] eqn:E.
    + assert (valid_list w listIndex = true) as -> by (apply valid_list_Some; eauto).
      rewrite returns_set_todos. by destruct (_ <? _), (returns _ _).
    + by apply valid_list_None in E as ->.
  - rewrite call_removeTodo. simpl. destruct (isSuccess _ _); [|done].
    destruct (nth_Z _ _) as [l|] eqn:E.
    + by rewrite returns_set_todos, (Hitem listIndex todoIndex l _ _ E).
    + by apply valid_list_None in E as ->.
  - rewrite call_moveTodo. simpl. destruct (isSuccess _ _); [|done].
    destruct (nth_Z _ _) as [l|] eqn:E.
    + by rewrite returns_set_todos, (Hitem listIndex sourceIndex l _ _ E).
    + by apply valid_list_None in E as ->.
  - rewrite call_editTodo. simpl. destruct (isSuccess _ _); [|done].
    destruct (nth_Z _ _) as [l|] eqn:E.
    + by rewrite returns_set_todos, (Hitem listIndex itemIndex l _ _ E).
    + by apply valid_list_None in E as ->.
Qed.

Lemma quiet_delivered w r : quiet w → delivered w r = true.
Proof.
  intros Hq. unfold delivered.
  destruct r; simpl; by rewrite ?quiet_returns.
Qed.

(** X5. With integers for index arguments, a call is reported as a success
    exactly when the draw passes, every index the method checks is in range,
    for [createList] and [addTodo] the array that is pushed on is short of
    2^32 - 1 elements, and the dispatch of the notification returns: no
    handler that it calls throws. *)
Theorem success_iff_draw_and_indices (rnd : Q) (r : Request) (w : World) :
  ((perform rnd r w).1 = Success
   ↔ isSuccess (successRate (todoApi w)) rnd = true
     ∧ indices_valid w r = true
     ∧ within_limit w r = true
     ∧ delivered w r = true)
  ∧ (quiet w → delivered w r = true).
Proof.
  split.
  - rewrite report_table.
    destruct (isSuccess _ _), (indices_valid w r), (within_limit w r), (delivered w r), r;
      split; try done; intros (? & ? & ? & ?); done.
  - apply quiet_delivered.
Qed.

(** X6. A call is answered with the envelope of code 400 exactly when the
    draw passes and an index that the method checks is out of range; the
    description is then "index out of bound". *)
Theorem rejected_400_iff_index_out_of_range (rnd : Q) (r : Request) (w : World) :
  (∀ description, (perform rnd r w).1 = Failure (mkError 400 description)
                  → description = "index out of bound")
  ∧ ((perform rnd r w).1 = Failure (mkError 400 "index out of bound")
     ↔ isSuccess (successRate (todoApi w)) rnd = true ∧ indices_valid w r = false).
Proof.
  rewrite report_table.
  destruct (isSuccess _ _), (indices_valid w r), (within_limit w r), (delivered w r), r;
    (split; [intros d; try done; by intros [= <-]|split; try done; by intros [? ?]]).
Qed.

(** X7. With integers for index arguments, no other envelope is ever built:
    an error is the one of code 400 or the one of code 500 with "internal
    error", and the latter is sent exactly when the draw fails, or when
    [addTodo] passes the draw and the checks and [push] finds the items array
    full, or when a method other than [createList] passes the draw and the
    checks and a handler throws in its dispatch. The promise stays pending
    exactly when [createList] passes the draw and either the store holds
    2^32 - 1 lists or a handler throws in its dispatch. *)
Theorem error_envelopes (rnd : Q) (r : Request) (w : World) :
  (∀ e, (perform rnd r w).1 = Failure e
        → e = mkError 400 "index out of bound" ∨ e = mkError 500 "internal error")
  ∧ ((perform rnd r w).1 = Failure (mkError 500 "internal error")
     ↔ isSuccess (successRate (todoApi w)) rnd = false
       ∨ (isSuccess (successRate (todoApi w)) rnd = true
          ∧ indices_valid w r = true ∧ within_limit w r = false
          ∧ ∃ listIndex item, r = AddTodo listIndex item)
       ∨ (isSuccess (successRate (todoApi w)) rnd = true
          ∧ indices_valid w r = true ∧ within_limit w r = true
          ∧ delivered w r = false
          ∧ ∀ name, r ≠ CreateList name))
  ∧ ((perform rnd r w).1 = Pending
     ↔ isSuccess (successRate (todoApi w)) rnd = true
       ∧ (∃ name, r = CreateList name)
       ∧ (Z.of_nat (length (todos (todoApi w))) >= 2 ^ 32 - 1
          ∨ delivered w r = false)).
Proof.
  rewrite report_table. split_and!.
  - intros e.
    destruct (isSuccess _ _), (indices_valid w r), (within_limit w r), (delivered w r), r;
      try done; intros [= <-]; auto.
  - destruct (isSuccess _ _) eqn:Hd, (indices_valid w r) eqn:Hi,
      (within_limit w r) eqn:Hl, (delivered w r) eqn:Hh, r;
      (split;
       [try done; intros _; try (by left);
        first [right; left; split_and!; by eauto
              |right; right; split_and!; by eauto]
       |try done;
        intros [?|[(? & ? & ? & ? & ? & ?)|(? & ? & ? & ? & Hn)]]; try done;
        by edestruct Hn]).
  - destruct (isSuccess _ _) eqn:Hd, (indices_valid w r) eqn:Hi,
      (within_limit w r) eqn:Hl, (delivered w r) eqn:Hh, r;
      simpl in Hl; try apply Z.ltb_lt in Hl; try apply Z.ltb_ge in Hl;
      (split;
       [try done; intros _;
        (split_and!; [done|by eexists|]; first [by right|left; lia])
       |try done; intros (? & [? ?] & [?|?]); try done; lia]).
Qed.

(** ** The store after a call on items *)

Section StoreAfter.
#[local] Opaque arr_splice arr_set arr_push moved after_dispatch returns.

Lemma todoApi_after_dispatch message w :
  todoApi (after_dispatch message w) = todoApi w.
Proof. by rewrite after_dispatch_eq. Qed.

Lemma todoApi_addTodo rnd listIndex item w l :
  isSuccess (successRate (todoApi w)) rnd = true →
  nth_Z (todos (todoApi w)) listIndex = Some l →
  todoApi (perform rnd (AddTodo listIndex item) w).2
  = mkTodoApi (successRate (todoApi w))
      (with_items (todos (todoApi w)) listIndex (arr_push (items l) (VTodo item)).1).
Proof.
  intros Hdraw Hl. simpl. rewrite report_world, call_addTodo. cbv zeta.
  rewrite Hdraw, Hl. destruct (_ <? _); simpl; by rewrite ?todoApi_after_dispatch.
Qed.

Lemma todoApi_removeTodo rnd listIndex todoIndex w l :
  isSuccess (successRate (todoApi w)) rnd = true →
  nth_Z (todos (todoApi w)) listIndex = Some l →
  todoApi (perform rnd (RemoveTodo listIndex todoIndex) w).2
  = mkTodoApi (successRate (todoApi w))
      (with_items (todos (todoApi w)) listIndex (arr_splice (items l) todoIndex 1 []).2).
Proof.
  intros Hdraw Hl. simpl. rewrite report_world, call_removeTodo. cbv zeta.
  rewrite Hdraw, Hl. simpl. by rewrite ?todoApi_after_dispatch.
Qed.

Lemma todoApi_moveTodo rnd listIndex sourceIndex destIndex w l :
  isSuccess (successRate (todoApi w)) rnd = true →
  nth_Z (todos (todoApi w)) listIndex = Some l →
  todoApi (perform rnd (MoveTodo listIndex sourceIndex destIndex) w).2
  = mkTodoApi (successRate (todoApi w))
      (with_items (todos (todoApi w)) listIndex (moved (items l) sourceIndex destIndex)).
Proof.
  intros Hdraw Hl. simpl. rewrite report_world, call_moveTodo. cbv zeta.
  rewrite Hdraw, Hl. simpl. by rewrite ?todoApi_after_dispatch.
Qed.

Lemma todoApi_editTodo rnd listIndex itemIndex newValue w l :
  isSuccess (successRate (todoApi w)) rnd = true →
  nth_Z (todos (todoApi w)) listIndex = Some l →
  todoApi (perform rnd (EditTodo listIndex itemIndex newValue) w).2
  = mkTodoApi (successRate (todoApi w))
      (with_items (todos (todoApi w)) listIndex
         (arr_set (items l) itemIndex (VTodo newValue))).
Proof.
  intros Hdraw Hl. simpl. rewrite report_world, call_editTodo. cbv zeta.
  rewrite Hdraw, Hl. simpl. by rewrite ?todoApi_after_dispatch.
Qed.

Lemma todoApi_createList rnd name' w :
  isSuccess (successRate (todoApi w)) rnd = true →
  Z.of_nat (length (todos (todoApi w))) < 2 ^ 32 - 1 →
  todoApi (perform rnd (CreateList name') w).2
  = mkTodoApi (successRate (todoApi w)) (todos (todoApi w) ++ [mkTodoList arr_empty name']).
Proof.
  intros Hdraw Hlen. simpl. rewrite report_world, call_createList. cbv zeta.
  rewrite Hdraw. destruct (Z.ltb_spec (Z.of_nat (length (todos (todoApi w)))) (2 ^ 32 - 1));
    [|lia].
  simpl. by rewrite todoApi_after_dispatch.
Qed.

Lemma todoApi_deleteList rnd listIndex w :
  isSuccess (successRate (todoApi w)) rnd = true →
  todoApi (perform rnd (DeleteList listIndex) w).2
  = mkTodoApi (successRate (todoApi w)) (splice (todos (todoApi w)) listIndex 1 []).2.
Proof.
  intros Hdraw. simpl. rewrite report_world, call_deleteList. cbv zeta. rewrite Hdraw.
  simpl. by rewrite ?todoApi_after_dispatch.
Qed.

(** A call that is not answered, or is answered without the draw, or names
    no list, leaves the API as it was. *)
Lemma todoApi_failed_draw rnd r w :
  isSuccess (successRate (todoApi w)) rnd = false → todoApi (perform rnd r w).2 = todoApi w.
Proof.
  intros Hdraw. destruct r; simpl; rewrite report_world;
    rewrite ?call_getTodoLists, ?call_createList, ?call_deleteList, ?call_addTodo,
      ?call_removeTodo, ?call_moveTodo, ?call_editTodo; cbv zeta; by rewrite Hdraw.
Qed.

Lemma todoApi_no_list rnd r listIndex w :
  list_of r = Some listIndex → nth_Z (todos (todoApi w)) listIndex = None →
  todoApi (perform rnd r w).2 = todoApi w.
Proof.
  intros Hr Hnone. destruct r; simplify_eq/=; rewrite report_world;
    rewrite ?call_addTodo, ?call_removeTodo, ?call_moveTodo, ?call_editTodo; cbv zeta;
    rewrite Hnone; by destruct (isSuccess _ _).
Qed.
End StoreAfter.

(** ** Calls on items, one after the other *)

Lemma arr_push_room (a : jsarray jsval) (v : jsval) :
  arr_length a < 2 ^ 32 - 1 → (arr_push a v).1 = JsArray (cells a ++ [Some v]) (props a).
Proof.
  intros Hlen. unfold arr_push.
  by destruct (Z.ltb_spec (arr_length a) (2 ^ 32 - 1)); [|lia].
Qed.

Lemma arr_set_valid (a : jsarray jsval) (i : Z) (v : jsval) :
  0 <= i < arr_length a → arr_length a <= 2 ^ 32 - 1 →
  arr_set a i v = JsArray (<[Z.to_nat i := Some v]> (cells a)) (props a).
Proof.
  intros Hi Hmax. unfold arr_set, is_array_index.
  destruct (Z.leb_spec 0 i), (Z.ltb_spec i (2 ^ 32 - 1)); try lia. simpl.
  by destruct (Z.ltb_spec i (arr_length a)); [|lia].
Qed.

Lemma with_items_with_items ts listIndex a1 a2 :
  with_items (with_items ts listIndex a1) listIndex a2 = with_items ts listIndex a2.
Proof. apply with_items_twice. Qed.

Lemma nth_Z_with_items ts listIndex a l :
  nth_Z ts listIndex = Some l →
  nth_Z (with_items ts listIndex a) listIndex = Some (set_items a l).
Proof. apply nth_Z_alter. Qed.

(** X8. Adding an item to a list whose items array is shorter than
    2^32 - 1 and then removing the position it was given (the former length of
    the items array) gives back the store as it was before the two calls. *)
Theorem addTodo_then_removeTodo_restores
    (rnd1 rnd2 : Q) (listIndex : Z) (item : Todo) (w : World) (l : TodoList) :
  isSuccess (successRate (todoApi w)) rnd1 = true →
  isSuccess (successRate (todoApi w)) rnd2 = true →
  nth_Z (todos (todoApi w)) listIndex = Some l →
  arr_length (items l) < 2 ^ 32 - 1 →
  let w1 := (perform rnd1 (AddTodo listIndex item) w).2 in
  let w2 := (perform rnd2 (RemoveTodo listIndex (arr_length (items l))) w1).2 in
  todoApi w2 = todoApi w.
Proof.
  intros Hd1 Hd2 Hl Hlen w1 w2.
  assert (todoApi w1 = mkTodoApi (successRate (todoApi w))
            (with_items (todos (todoApi w)) listIndex
               (JsArray (cells (items l) ++ [Some (VTodo item)]) (props (items l)))))
    as Hw1 by (unfold w1; rewrite (todoApi_addTodo _ _ _ _ l), arr_push_room; done).
  unfold w2. erewrite todoApi_removeTodo.
  2:{ by rewrite Hw1. }
  2:{ rewrite Hw1. simpl. by apply nth_Z_with_items. }
  rewrite Hw1. cbn [todos successRate items set_items].
  rewrite with_items_with_items, arr_splice_one_valid.
  2:{ unfold arr_length in *. simpl. rewrite length_app. simpl. lia. }
  simpl. unfold arr_length. rewrite Nat2Z.id.
  replace (delete _ _) with (cells (items l)).
  2:{ symmetry. rewrite <- (app_nil_r (cells (items l))) at 2.
      rewrite <- app_assoc. simpl. by rewrite delete_middle, app_nil_r. }
  replace (JsArray (cells (items l)) (props (items l))) with (items l)
    by by destruct (items l).
  rewrite with_items_same by done. by destruct (todoApi w).
Qed.

Lemma addTodo_then_removeTodo_restores_witness :
  todoApi (perform half (RemoveTodo 0 4) (perform half (AddTodo 0 itemB) world_abcd).2).2
  = todoApi world_abcd.
Proof.
  apply (addTodo_then_removeTodo_restores half half 0 itemB world_abcd list_abcd);
    reflexivity.
Defined.

(** X9. Creating a list in a store of fewer than 2^32 - 1 lists and then
    deleting the index of the new list gives back the store as it was before
    the two calls. That index, the former length of the store, is what
    [createList] answers when its dispatch returns, as it does when no handler
    of a subscribed client throws; when a handler throws, the promise of
    [createList] stays pending. *)
Theorem createList_then_deleteList_restores (rnd1 rnd2 : Q) (name' : string) (w : World) :
  isSuccess (successRate (todoApi w)) rnd1 = true →
  isSuccess (successRate (todoApi w)) rnd2 = true →
  Z.of_nat (length (todos (todoApi w))) < 2 ^ 32 - 1 →
  let w1 := (perform rnd1 (CreateList name') w).2 in
  let w2 := (perform rnd2 (DeleteList (Z.of_nat (length (todos (todoApi w))))) w1).2 in
  (call (createList rnd1 name') w).1
  = (if returns (CreateListMessage (mkTodoList (JsArray [] ∅) name')) w
     then Some (Resolved (Z.of_nat (length (todos (todoApi w))))) else None)
  ∧ (quiet w →
     (call (createList rnd1 name') w).1
     = Some (Resolved (Z.of_nat (length (todos (todoApi w))))))
  ∧ todoApi w2 = todoApi w.
Proof.
  intros Hd1 Hd2 Hlen w1 w2.
  assert ((call (createList rnd1 name') w).1
          = (if returns (CreateListMessage (mkTodoList (JsArray [] ∅) name')) w
             then Some (Resolved (Z.of_nat (length (todos (todoApi w))))) else None))
    as Hanswer.
  { rewrite call_createList. cbv zeta. rewrite Hd1, returns_set_todos.
    by destruct (Z.ltb_spec (Z.of_nat (length (todos (todoApi w)))) (2 ^ 32 - 1)); [|lia]. }
  split_and!.
  - done.
  - intros Hq. by rewrite Hanswer, quiet_returns.
  - unfold w2, w1. rewrite todoApi_deleteList, !todoApi_createList by
      (rewrite ?todoApi_createList; done).
    cbn [todos successRate].
    rewrite splice_one_valid by (rewrite length_app; simpl; lia).
    rewrite Nat2Z.id, delete_middle, app_nil_r. by destruct (todoApi w).
Qed.

Lemma createList_then_deleteList_restores_witness :
  todoApi (perform half (DeleteList 1) (perform half (CreateList "home") world_abcd).2).2
  = todoApi world_abcd.
Proof.
  apply (createList_then_deleteList_restores half half "home" world_abcd); reflexivity.
Defined.

(** X10. Of two edits of the same position the last one wins: the store
    after both is the store after the second one alone. *)
Theorem editTodo_last_wins
    (rnd1 rnd2 : Q) (listIndex itemIndex : Z) (v1 v2 : Todo) (w : World) (l : TodoList) :
  isSuccess (successRate (todoApi w)) rnd1 = true →
  isSuccess (successRate (todoApi w)) rnd2 = true →
  nth_Z (todos (todoApi w)) listIndex = Some l →
  0 <= itemIndex < arr_length (items l) →
  arr_length (items l) <= 2 ^ 32 - 1 →
  todoApi (perform rnd2 (EditTodo listIndex itemIndex v2)
             (perform rnd1 (EditTodo listIndex itemIndex v1) w).2).2
  = todoApi (perform rnd2 (EditTodo listIndex itemIndex v2) w).2.
Proof.
  intros Hd1 Hd2 Hl Hi Hmax.
  pose proof (todoApi_editTodo rnd1 listIndex itemIndex v1 w l Hd1 Hl) as Hw1.
  rewrite (todoApi_editTodo rnd2 listIndex itemIndex v2 w l Hd2 Hl).
  erewrite todoApi_editTodo.
  2:{ by rewrite Hw1. }
  2:{ rewrite Hw1. simpl. by apply nth_Z_with_items. }
  rewrite Hw1. cbn [todos successRate items set_items].
  rewrite with_items_with_items. do 2 f_equal.
  rewrite !(arr_set_valid (items l)) by done.
  rewrite arr_set_valid by (unfold arr_length in *; simpl; by rewrite length_insert).
  simpl. by rewrite list_insert_insert_eq.
Qed.

Lemma editTodo_last_wins_witness :
  todoApi (perform half (EditTodo 0 1 itemD) (perform half (EditTodo 0 1 itemC) world_abcd).2).2
  = todoApi (perform half (EditTodo 0 1 itemD) world_abcd).2.
Proof.
  apply (editTodo_last_wins half half 0 1 itemC itemD world_abcd list_abcd);
    try reflexivity.
  - vm_compute. by split.
  - vm_compute. discriminate.
Defined.

(** ** moveTodo on a valid source *)

Lemma put_back_in_place {X : Type} (l : list X) (n : nat) (c : X) :
  l !! n = Some c → take n (delete n l) ++ c :: drop n (delete n l) = l.
Proof.
  intros Hc. pose proof (lookup_lt_Some _ _ _ Hc) as Hn.
  rewrite delete_take_drop.
  rewrite take_app_length', drop_app_length' by (rewrite length_take; lia).
  by apply take_drop_middle.
Qed.

(** X11. [moveTodo] with the draw passed and a valid source that holds an
    item loses and duplicates nothing, whatever [destIndex] is: the items of
    the list after the call are a permutation of the items before it, and the
    array keeps its length and its other properties. *)
Theorem moveTodo_permutes_the_items
    (rnd : Q) (listIndex sourceIndex destIndex : Z) (w : World) (l : TodoList) (v : jsval) :
  isSuccess (successRate (todoApi w)) rnd = true →
  nth_Z (todos (todoApi w)) listIndex = Some l →
  0 <= sourceIndex →
  cells (items l) !! Z.to_nat sourceIndex = Some (Some v) →
  ∃ a, nth_Z (todos (todoApi (perform rnd (MoveTodo listIndex sourceIndex destIndex) w).2))
         listIndex = Some (mkTodoList a (name l))
       ∧ cells a ≡ₚ cells (items l)
       ∧ length (cells a) = length (cells (items l))
       ∧ props a = props (items l).
Proof.
  intros Hdraw Hl Hs Hv.
  assert (0 <= sourceIndex < arr_length (items l)) as Hsrc
    by (apply lookup_lt_Some in Hv; unfold arr_length; lia).
  destruct (moved_valid_source (items l) sourceIndex destIndex Hsrc) as (c & Hc & Hm).
  assert (c = Some v) as -> by congruence. simpl in Hm.
  eexists. rewrite (todoApi_moveTodo _ _ _ _ _ l Hdraw Hl). simpl.
  split; [by apply nth_Z_with_items|].
  rewrite Hm. simpl.
  assert (∀ p, take p (delete (Z.to_nat sourceIndex) (cells (items l))) ++
               Some v :: drop p (delete (Z.to_nat sourceIndex) (cells (items l)))
               ≡ₚ cells (items l)) as Hperm.
  { intros p. rewrite <- Permutation_middle, take_drop.
    symmetry. by apply delete_Permutation. }
  split_and!; [apply Hperm| |done].
  apply Permutation_length, Hperm.
Qed.

Lemma moveTodo_permutes_the_items_witness :
  ∃ a, nth_Z (todos (todoApi (perform half (MoveTodo 0 1 (-7)) world_abcd).2)) 0
       = Some (mkTodoList a "work")
       ∧ cells a ≡ₚ cells (items list_abcd).
Proof.
  destruct (moveTodo_permutes_the_items half 0 1 (-7) world_abcd list_abcd (VTodo itemB))
    as (a & Ha & Hp & _); [reflexivity|reflexivity|lia|reflexivity|].
  exists a. split; [exact Ha|exact Hp].
Defined.

(** X12. Moving an item to the index after its own ([destIndex] =
    [sourceIndex] + 1) is the move that changes nothing: the item is put
    back where it was taken. The promise is resolved with [true] when the
    dispatch returns, as it does when no handler of a subscribed client
    throws, and rejected with code 500 when a handler throws. *)
Theorem moveTodo_to_next_index_changes_nothing
    (rnd : Q) (listIndex sourceIndex : Z) (w : World) (l : TodoList) (v : jsval) :
  isSuccess (successRate (todoApi w)) rnd = true →
  nth_Z (todos (todoApi w)) listIndex = Some l →
  0 <= sourceIndex →
  cells (items l) !! Z.to_nat sourceIndex = Some (Some v) →
  let result := call (moveTodo rnd listIndex sourceIndex (sourceIndex + 1)) w in
  result.1 = Some (if returns (MoveTodoMessage listIndex sourceIndex (sourceIndex + 1)) w
                   then Resolved true else Rejected (mkError 500 "internal error"))
  ∧ (quiet w → result.1 = Some (Resolved true))
  ∧ todoApi result.2 = todoApi w.
Proof.
  intros Hdraw Hl Hs Hv result.
  assert (0 <= sourceIndex < arr_length (items l)) as Hsrc
    by (apply lookup_lt_Some in Hv; unfold arr_length; lia).
  assert (result.1
          = Some (if returns (MoveTodoMessage listIndex sourceIndex (sourceIndex + 1)) w
                  then Resolved true else Rejected (mkError 500 "internal error")))
    as Hanswer.
  { unfold result. rewrite call_moveTodo. cbv zeta.
    rewrite Hdraw, Hl, bad_index, returns_set_todos.
    destruct (Z.leb_spec 0 sourceIndex); [|lia].
    by destruct (Z.ltb_spec sourceIndex (arr_length (items l))); [|lia]. }
  split_and!.
  - done.
  - intros Hq. by rewrite Hanswer, quiet_returns.
  - assert (result.2 = (perform rnd (MoveTodo listIndex sourceIndex (sourceIndex + 1)) w).2)
      as -> by (simpl; by rewrite report_world).
    rewrite (todoApi_moveTodo _ _ _ _ _ l Hdraw Hl).
    destruct (moved_valid_source (items l) sourceIndex (sourceIndex + 1) Hsrc)
      as (c & Hc & ->).
    assert (c = Some v) as -> by congruence. simpl.
    destruct (Z.ltb_spec (sourceIndex + 1) sourceIndex); [lia|].
    replace (sourceIndex + 1 - 1) with sourceIndex by lia.
    assert (actual_start (arr_length (items l) - 1) sourceIndex = sourceIndex) as ->
      by (unfold actual_start; destruct (Z.ltb_spec sourceIndex 0); lia).
    rewrite (put_back_in_place _ _ _ Hv).
    replace (JsArray (cells (items l)) (props (items l))) with (items l)
      by by destruct (items l).
    rewrite with_items_same by done. by destruct (todoApi w).
Qed.

Lemma moveTodo_to_next_index_changes_nothing_witness :
  todoApi (call (moveTodo half 0 1 2) world_abcd).2 = todoApi world_abcd.
Proof.
  destruct (moveTodo_to_next_index_changes_nothing half 0 1 world_abcd list_abcd
              (VTodo itemB)) as (_ & _ & H); [reflexivity|reflexivity|lia|reflexivity|].
  exact H.
Defined.

(** X13. When the adjusted destination ([destIndex] below the source,
    [destIndex - 1] otherwise) is a position of the array without the item,
    or its end, the moved item is found at exactly that index after the
    call. *)
Theorem moveTodo_lands_at_adjusted_destination
    (rnd : Q) (listIndex sourceIndex destIndex : Z) (w : World) (l : TodoList) (v : jsval) :
  isSuccess (successRate (todoApi w)) rnd = true →
  nth_Z (todos (todoApi w)) listIndex = Some l →
  0 <= sourceIndex →
  cells (items l) !! Z.to_nat sourceIndex = Some (Some v) →
  let realDest := if destIndex <? sourceIndex then destIndex else destIndex - 1 in
  0 <= realDest <= arr_length (items l) - 1 →
  ∃ a, nth_Z (todos (todoApi (perform rnd (MoveTodo listIndex sourceIndex destIndex) w).2))
         listIndex = Some (mkTodoList a (name l))
       ∧ cells a !! Z.to_nat realDest = Some (Some v).
Proof.
  intros Hdraw Hl Hs Hv realDest Hd.
  assert (0 <= sourceIndex < arr_length (items l)) as Hsrc
    by (apply lookup_lt_Some in Hv; unfold arr_length; lia).
  destruct (moved_valid_source (items l) sourceIndex destIndex Hsrc) as (c & Hc & Hm).
  assert (c = Some v) as -> by congruence. simpl in Hm. fold realDest in Hm.
  eexists. rewrite (todoApi_moveTodo _ _ _ _ _ l Hdraw Hl). simpl.
  split; [by apply nth_Z_with_items|].
  rewrite Hm. simpl.
  assert (actual_start (arr_length (items l) - 1) realDest = realDest) as ->
    by (unfold actual_start; destruct (Z.ltb_spec realDest 0); lia).
  apply list_lookup_middle. rewrite length_take, length_delete by eauto.
  unfold arr_length in *. lia.
Qed.

Lemma moveTodo_lands_at_adjusted_destination_witness :
  ∃ a, nth_Z (todos (todoApi (perform half (MoveTodo 0 0 3) world_abcd).2)) 0
       = Some (mkTodoList a "work")
       ∧ cells a !! 2%nat = Some (Some (VTodo itemA)).
Proof.
  destruct (moveTodo_lands_at_adjusted_destination half 0 0 3 world_abcd list_abcd
              (VTodo itemA)) as (a & Ha & Hp);
    [reflexivity|reflexivity|lia|reflexivity|vm_compute; by split|].
  exists a. split; [exact Ha|exact Hp].
Defined.

(** ** What a call on items leaves alone *)

Lemma with_items_others ts listIndex a l :
  nth_Z ts listIndex = Some l →
  length (with_items ts listIndex a) = length ts
  ∧ name <$> with_items ts listIndex a = name <$> ts
  ∧ ∀ j, j ≠ listIndex → nth_Z (with_items ts listIndex a) j = nth_Z ts j.
Proof.
  intros [Hi Hl]%nth_Z_Some. unfold with_items. split_and!.
  - apply length_alter.
  - rewrite (list_fmap_alter name (set_items a) id) by by apply Forall_true.
    by apply list_alter_id.
  - intros j Hj. unfold nth_Z. destruct (Z.ltb_spec j 0); [done|].
    apply list_lookup_alter_ne. lia.
Qed.

(** X14. [addTodo], [removeTodo], [moveTodo] and [editTodo] never add or
    remove a list, never change a name and never touch another list than the
    one they are called on. This holds of every call: whatever the draw,
    whatever the indices, and also when the call is answered with an error. *)
Theorem item_calls_touch_one_list (rnd : Q) (r : Request) (listIndex : Z) (w : World) :
  list_of r = Some listIndex →
  let ts := todos (todoApi w) in
  let ts' := todos (todoApi (perform rnd r w).2) in
  length ts' = length ts
  ∧ name <$> ts' = name <$> ts
  ∧ ∀ j, j ≠ listIndex → nth_Z ts' j = nth_Z ts j.
Proof.
  intros Hr ts ts'. unfold ts'.
  destruct (isSuccess (successRate (todoApi w)) rnd) eqn:Hdraw;
    [|by rewrite todoApi_failed_draw].
  destruct (nth_Z ts listIndex) as [l|] eqn:Hl;
    [|by rewrite (todoApi_no_list _ _ listIndex)].
  destruct r; simpl in Hr; try discriminate; injection Hr as ->.
  - rewrite (todoApi_addTodo _ _ _ _ l) by done. by apply (with_items_others _ _ _ l).
  - rewrite (todoApi_removeTodo _ _ _ _ l) by done. by apply (with_items_others _ _ _ l).
  - rewrite (todoApi_moveTodo _ _ _ _ _ l) by done. by apply (with_items_others _ _ _ l).
  - rewrite (todoApi_editTodo _ _ _ _ _ l) by done. by apply (with_items_others _ _ _ l).
Qed.

Lemma item_calls_touch_one_list_witness :
  name <$> todos (todoApi (perform half (EditTodo 0 9 itemA) world_abcd).2)
  = name <$> todos (todoApi world_abcd).
Proof.
  destruct (item_calls_touch_one_list half (EditTodo 0 9 itemA) 0 world_abcd) as (_ & H & _);
    [reflexivity|exact H].
Defined.

(** ** Stores as the declared types have them *)

Lemma copy_tidy (a : jsarray jsval) : tidy_array a → arr_map copy_object a = a.
Proof.
  intros (Hp & Hc & _). destruct a as [cs ps]. simpl in *. subst ps.
  unfold arr_map. simpl. f_equal.
  induction Hc as [|c cs Hc _ IH]; [done|]. rewrite fmap_cons, IH. f_equal.
  by destruct c as [[| |t]|].
Qed.

(** X15. On a store whose items arrays hold [Todo] objects only (no hole, no
    [undefined], no stray property), a successful [getTodoLists] is resolved
    with lists that are, as values, the lists of the store, and leaves the
    world as it is. *)
Theorem getTodoLists_answers_the_store (rnd : Q) (w : World) :
  isSuccess (successRate (todoApi w)) rnd = true →
  tidy (todos (todoApi w)) →
  call (getTodoLists rnd) w = (Some (Resolved (todos (todoApi w))), w).
Proof.
  intros Hdraw Ht. rewrite call_getTodoLists, Hdraw. do 3 f_equal.
  induction Ht as [|l ts Hl _ IH]; [done|]. rewrite fmap_cons, IH. f_equal.
  unfold copy_todolist. rewrite copy_tidy by done. by destruct l.
Qed.

Lemma getTodoLists_answers_the_store_witness :
  call (getTodoLists half) world_abcd = (Some (Resolved [list_abcd]), world_abcd).
Proof.
  apply (getTodoLists_answers_the_store half world_abcd); [reflexivity|].
  apply (bool_decide_unpack _). vm_compute. exact I.
Defined.

Lemma tidy_with_items ts listIndex a :
  tidy ts → tidy_array a → tidy (with_items ts listIndex a).
Proof. intros Hts Ha. apply Forall_alter; [done|]. by intros l _ _. Qed.

Lemma valid_item_Some w listIndex i :
  valid_list w listIndex && valid_item w listIndex i = true →
  ∃ l, nth_Z (todos (todoApi w)) listIndex = Some l ∧ 0 <= i < arr_length (items l).
Proof.
  intros [_ Hi]%andb_true_iff. unfold valid_item in Hi.
  destruct (nth_Z _ _) as [l|]; [|done]. exists l. split; [done|].
  apply andb_true_iff in Hi. lia.
Qed.

(** X16. A store whose items arrays hold [Todo] objects only stays such a
    store under every call whose indices are in range and whose [push] has
    room, whether the draw passes or not. The store of a new API is one. *)
Theorem valid_calls_keep_the_store_tidy (rnd : Q) (r : Request) (w : World) :
  tidy (todos (todoApi w)) →
  indices_valid w r = true →
  within_limit w r = true →
  tidy (todos (todoApi initial_world))
  ∧ tidy (todos (todoApi (perform rnd r w).2)).
Proof.
  intros Ht Hv Hroom. split; [by constructor|].
  destruct (isSuccess (successRate (todoApi w)) rnd) eqn:Hdraw;
    [|by rewrite todoApi_failed_draw].
  destruct r; simpl in Hv, Hroom.
  - simpl. unfold report. by rewrite call_getTodoLists, Hdraw.
  - rewrite todoApi_createList by (done || lia). cbn [todos].
    apply Forall_app. split; [done|]. apply Forall_singleton.
    split_and!; [done|constructor|unfold arr_length; simpl; lia].
  - rewrite todoApi_deleteList by done. cbn [todos].
    rewrite splice_one_valid by (unfold valid_list in Hv; apply andb_true_iff in Hv; lia).
    by apply Forall_delete.
  - apply valid_list_Some in Hv as [l Hl]. rewrite Hl in Hroom.
    rewrite (todoApi_addTodo _ _ _ _ l) by done. cbn [todos].
    rewrite arr_push_room by lia. apply tidy_with_items; [done|].
    apply nth_Z_Some in Hl as [_ Hl].
    destruct (proj1 (Forall_lookup _ _) Ht _ _ Hl) as (Hp & Hc & Hlen).
    split_and!; simpl; [done| |unfold arr_length in *; simpl; rewrite length_app; simpl; lia].
    apply Forall_app. split; [done|]. by apply Forall_singleton.
  - apply valid_item_Some in Hv as (l & Hl & Hi).
    rewrite (todoApi_removeTodo _ _ _ _ l) by done. cbn [todos].
    rewrite arr_splice_one_valid by done. apply tidy_with_items; [done|].
    apply nth_Z_Some in Hl as [_ Hl].
    destruct (proj1 (Forall_lookup _ _) Ht _ _ Hl) as (Hp & Hc & Hlen).
    split_and!; simpl; [done|by apply Forall_delete|].
    pose proof (length_delete (cells (items l)) (Z.to_nat todoIndex)) as Hd.
    unfold arr_length in *. simpl.
    destruct (lookup_lt_is_Some_2 (cells (items l)) (Z.to_nat todoIndex)) as [c Hc'];
      [lia|]. rewrite Hd by eauto. lia.
  - apply valid_item_Some in Hv as (l & Hl & Hi).
    rewrite (todoApi_moveTodo _ _ _ _ _ l) by done. cbn [todos].
    destruct (moved_valid_source (items l) sourceIndex destIndex Hi) as (c & Hc & ->).
    apply tidy_with_items; [done|].
    apply nth_Z_Some in Hl as [_ Hl].
    destruct (proj1 (Forall_lookup _ _) Ht _ _ Hl) as (Hp & Hcs & Hlen).
    pose proof (proj1 (Forall_lookup _ _) Hcs _ _ Hc) as Hct.
    destruct c as [[| |t]|]; try done.
    split_and!; simpl; [done| |].
    + apply Forall_app. split; [by apply Forall_take, Forall_delete|].
      apply Forall_cons. split; [done|]. by apply Forall_drop, Forall_delete.
    + unfold arr_length in *. simpl.
      rewrite length_app. simpl. rewrite length_take, length_drop, length_delete by eauto.
      lia.
  - apply valid_item_Some in Hv as (l & Hl & Hi).
    rewrite (todoApi_editTodo _ _ _ _ _ l) by done. cbn [todos].
    apply tidy_with_items; [done|].
    apply nth_Z_Some in Hl as [_ Hl].
    destruct (proj1 (Forall_lookup _ _) Ht _ _ Hl) as (Hp & Hcs & Hlen).
    rewrite arr_set_valid by done.
    split_and!; simpl; [done|by apply Forall_insert|].
    unfold arr_length in *. simpl. by rewrite length_insert.
Qed.

Lemma valid_calls_keep_the_store_tidy_witness :
  tidy (todos (todoApi (perform half (MoveTodo 0 3 0) world_abcd).2)).
Proof.
  apply (valid_calls_keep_the_store_tidy half (MoveTodo 0 3 0) world_abcd);
    [|reflexivity|reflexivity].
  apply (bool_decide_unpack _). vm_compute. exact I.
Defined.

(** * Further properties of the socket *)

Lemma throws_step s w : throws (step w s) = throws w.
Proof.
  destruct s as [x|x|m|rnd r]; simpl; [done|done|by rewrite after_dispatch_eq|].
  apply perform_throws.
Qed.

Lemma clients_step client s w :
  client ∈ clients (fakeSocket (step w s)) →
  client ∈ clients (fakeSocket w) ∨ s = AddListener client.
Proof.
  destruct s as [x|x|m|rnd r]; simpl.
  - intros [?|?%list_elem_of_singleton]%elem_of_app; subst; auto.
  - intros [_ ?]%list_elem_of_filter. auto.
  - rewrite after_dispatch_eq. auto.
  - rewrite perform_fakeSocket. auto.
Qed.

(** One dispatch, seen from a client: the message, and how many times the
    client was handed it. *)
Lemma dispatch_fan_out c m w :
  let n := length (filter (λ x, x = c) (take (handed m w) (clients (fakeSocket w)))) in
  dispatched <$> dispatches (after_dispatch m w) = (dispatched <$> dispatches w) ++ [m]
  ∧ received_by c (after_dispatch m w) = received_by c w ++ replicate n (stamped w m)
  ∧ (n ≤ subscriptions c w)%nat
  ∧ (quiet w → n = subscriptions c w).
Proof.
  intros n. split_and!.
  - rewrite after_dispatch_eq. simpl. by rewrite fmap_app.
  - apply received_by_after_dispatch.
  - apply filter_take_length.
  - intros Hq. unfold n. by rewrite returns_handed, take_all by by apply quiet_returns.
Qed.

Lemma step_fan_out c s w :
  s ≠ AddListener c → s ≠ RemoveListener c →
  ∃ news : list (RawMessage * nat),
    dispatched <$> dispatches (step w s) = (dispatched <$> dispatches w) ++ news.*1
    ∧ received_by c (step w s)
      = received_by c w ++ (p ← news; replicate p.2 (stamped w p.1))
    ∧ Forall (λ p, (p.2 ≤ subscriptions c w)%nat) news
    ∧ (quiet w → Forall (λ p, p.2 = subscriptions c w) news).
Proof.
  intros Hadd Hrem. destruct s as [x|x|m|rnd r]; simpl.
  - exists []. by rewrite !app_nil_r.
  - exists []. by rewrite !app_nil_r.
  - destruct (dispatch_fan_out c m w) as (Hd & Hr & Hle & Hq).
    eexists [(m, _)]. simpl. rewrite app_nil_r.
    split_and!; [done|done|by apply Forall_singleton|].
    intros ?. apply Forall_singleton. by apply Hq.
  - destruct (perform_world rnd r w) as [ts [->|[m ->]]].
    + exists []. by rewrite !app_nil_r.
    + destruct (dispatch_fan_out c m (set_todos ts w)) as (Hd & Hr & Hle & Hq).
      eexists [(m, _)]. simpl. rewrite app_nil_r.
      split_and!; [done|done|by apply Forall_singleton|].
      intros ?. apply Forall_singleton. by apply Hq.
Qed.

(** X17. Over any run of calls in which a client is neither subscribed nor
    removed, the client is handed nothing but the messages that are
    dispatched, by the API or directly, in the order of dispatch: each of
    them at most once for each position it holds in the active set, since a
    handler that throws stops the dispatch, and exactly once for each
    position (so exactly once when it subscribed once) when no handler of a
    client that is subscribed, then or later in the run, throws. *)
Theorem subscriber_receives_every_dispatch (c : SocketClient) (ss : list Step) (w : World) :
  AddListener c ∉ ss → RemoveListener c ∉ ss →
  ∃ news : list (RawMessage * nat),
    dispatched <$> dispatches (run ss w) = (dispatched <$> dispatches w) ++ news.*1
    ∧ received_by c (run ss w)
      = received_by c w ++ (p ← news; replicate p.2 (stamped w p.1))
    ∧ Forall (λ p, (p.2 ≤ subscriptions c w)%nat) news
    ∧ ((∀ client, client ∈ clients (fakeSocket w) ∨ AddListener client ∈ ss →
                  ∀ before m, throws w client before m = false) →
       Forall (λ p, p.2 = subscriptions c w) news).
Proof.
  revert w. induction ss as [|s ss IH]; intros w Hadd Hrem.
  - exists []. by rewrite !app_nil_r.
  - apply not_elem_of_cons in Hadd as [Hadd1 Hadd]. apply not_elem_of_cons in Hrem as [Hrem1 Hrem].
    destruct (step_fan_out c s w) as (n1 & Hd1 & Hr1 & Hle1 & Hq1); [done..|].
    destruct (IH (step w s) Hadd Hrem) as (n2 & Hd2 & Hr2 & Hle2 & Hq2).
    rewrite subscriptions_step in Hle2, Hq2 by done.
    exists (n1 ++ n2). unfold run. simpl. fold (run ss (step w s)).
    rewrite Hd2, Hd1, Hr2, Hr1, <- !app_assoc, bind_app, fmap_app.
    split_and!; [done| |by apply Forall_app|].
    + do 2 f_equal. unfold stamped.
      pose proof (sequenceId_constant [s] w) as Hseq.
      change (run [s] w) with (step w s) in Hseq. by rewrite Hseq.
    + intros Hcalm. apply Forall_app. split.
      * apply Hq1. intros client Hclient. apply Hcalm. by left.
      * apply Hq2. intros client Hclient. rewrite throws_step. apply Hcalm.
        destruct Hclient as [[?| ->]%clients_step|?].
        -- by left.
        -- right. left.
        -- right. by right.
Qed.

Lemma subscriber_receives_every_dispatch_witness :
  ∃ news,
    dispatched <$> dispatches (run [ApiCall half (CreateList "home");
                                    ApiCall half (AddTodo 1 itemA)] world_abcd)
    = (dispatched <$> dispatches world_abcd) ++ news.*1
    ∧ received_by 7%nat (run [ApiCall half (CreateList "home");
                              ApiCall half (AddTodo 1 itemA)] world_abcd)
      = received_by 7%nat world_abcd
        ++ (p ← news; replicate p.2 (stamped world_abcd p.1))
    ∧ Forall (λ p, p.2 = subscriptions 7%nat world_abcd) news.
Proof.
  destruct (subscriber_receives_every_dispatch 7%nat
              [ApiCall half (CreateList "home"); ApiCall half (AddTodo 1 itemA)]
              world_abcd) as (news & Hd & Hr & _ & Hq).
  - intros H. repeat (inversion H as [|? ? ? H']; clear H; rename H' into H).
  - intros H. repeat (inversion H as [|? ? ? H']; clear H; rename H' into H).
  - exists news. split_and!; [exact Hd|exact Hr|].
    apply Hq. intros client _ before m. reflexivity.
Defined.

(** X18. Subscribing a client that is not in the active set and removing it
    again gives back the world as it was. *)
Theorem addListener_then_removeListener_restores (c : SocketClient) (w : World) :
  c ∉ clients (fakeSocket w) → removeListener c (addListener c w) = w.
Proof.
  intros Hc. unfold removeListener, addListener, set_socket. simpl.
  rewrite filter_app, filter_cons_False, filter_nil, app_nil_r by (intros H; by apply H).
  rewrite filter_all by (intros x Hx ->; contradiction).
  by destruct w as [api [cs n] rc ds t].
Qed.

Lemma addListener_then_removeListener_restores_witness :
  removeListener 8%nat (addListener 8%nat world_abcd) = world_abcd.
Proof.
  apply (addListener_then_removeListener_restores 8%nat world_abcd).
  vm_compute. intros H. inversion H as [|? ? ? H']. inversion H'.
Defined.

(** X19. [removeListener] is idempotent, two removals commute, and a removal
    takes nothing but the removed client out of the active set: another
    client holds as many positions after it as before. *)
Theorem removeListener_algebra (a b : SocketClient) (w : World) :
  removeListener a (removeListener a w) = removeListener a w
  ∧ removeListener a (removeListener b w) = removeListener b (removeListener a w)
  ∧ subscriptions a (removeListener a w) = 0%nat
  ∧ (a ≠ b → subscriptions b (removeListener a w) = subscriptions b w).
Proof.
  unfold removeListener, set_socket, subscriptions. simpl. split_and!.
  - by rewrite list_filter_filter, (list_filter_iff _ (λ x, x ≠ a)) by tauto.
  - do 2 f_equal. rewrite !list_filter_filter. apply list_filter_iff. tauto.
  - rewrite list_filter_filter, (list_filter_iff _ (λ _, False)) by (intros; tauto).
    by induction (clients (fakeSocket w)) as [|x l IH];
      [|rewrite filter_cons_False by tauto].
  - intros Hab. rewrite list_filter_filter. f_equal. apply list_filter_iff.
    intros x. split; [tauto|]. intros ->. split; [done|]. congruence.
Qed.

Lemma removeListener_algebra_witness :
  subscriptions 7%nat (removeListener 8%nat world_abcd) = subscriptions 7%nat world_abcd.
Proof.
  destruct (removeListener_algebra 8%nat 7%nat world_abcd) as (_ & _ & _ & H).
  apply H. discriminate.
Defined.

(** * The success rate *)

(** No call writes [successRate]. *)
Lemma successRate_constant ss w :
  successRate (todoApi (run ss w)) = successRate (todoApi w).
Proof.
  revert w. induction ss as [|s ss IH]; intros w; [done|].
  unfold run. simpl. fold (run ss (step w s)). rewrite IH.
  destruct s as [x|x|m|rnd r]; simpl; [done|done|by rewrite after_dispatch_eq|].
  destruct (perform_world rnd r w) as [ts [->|[m ->]]]; [done|].
  by rewrite after_dispatch_eq.
Qed.

(** X20. The API as it is constructed (success rate 1) never fails the draw,
    after any run of calls and whatever the handlers of the clients do:
    [Math.random()] is below 1 and no call changes the rate. With integers
    for index arguments, a request is then answered with a success exactly
    when its indices are in range, [push] has room and the dispatch of its
    notification returns; and the code 500 is never answered for the draw:
    it is answered exactly when a method other than [createList] passes the
    index checks and either [push] finds the array full or a handler throws
    in the dispatch. *)
Theorem new_api_never_fails_the_draw
    (handlers : SocketClient → list SocketMessage → SocketMessage → bool)
    (ss : list Step) (rnd : Q) (r : Request) :
  (rnd < 1)%Q →
  let w := run ss (new_world handlers) in
  isSuccess (successRate (todoApi w)) rnd = true
  ∧ ((perform rnd r w).1 = Success
     ↔ indices_valid w r = true ∧ within_limit w r = true ∧ delivered w r = true)
  ∧ ((perform rnd r w).1 = Failure internal_error
     ↔ indices_valid w r = true
       ∧ (within_limit w r = false ∨ delivered w r = false)
       ∧ ∀ name, r ≠ CreateList name).
Proof.
  intros Hrnd w.
  assert (isSuccess (successRate (todoApi w)) rnd = true) as Hdraw.
  { unfold w. rewrite successRate_constant. simpl. unfold isSuccess.
    destruct (Qle_bool 1 rnd) eqn:E; [|done].
    apply Qle_bool_iff in E. exfalso. by eapply Qlt_not_le. }
  split; [done|]. rewrite report_table, Hdraw.
  split.
  - destruct (indices_valid w r), (within_limit w r), (delivered w r), r;
      split; try done; by intros (? & ? & ?).
  - destruct (indices_valid w r), (within_limit w r), (delivered w r), r;
      split; try done;
      first [intros _; split_and!; by auto
            |intros (? & [?|?] & Hn); try done; by edestruct Hn].
Qed.

Lemma new_api_never_fails_the_draw_witness :
  isSuccess (successRate (todoApi (run [ApiCall half (CreateList "home")]
                                     (new_world (λ _ _ _, true)))))
    three_quarters = true.
Proof.
  destruct (new_api_never_fails_the_draw (λ _ _ _, true)
              [ApiCall half (CreateList "home")]
              three_quarters GetTodoLists) as [H _]; [reflexivity|exact H].
Defined.

(** * RandomActionExecutor *)

Lemma Qltb_true (x y : Q) : (x < y)%Q → Qltb x y = true.
Proof.
  intros Hlt. unfold Qltb. destruct (Qle_bool y x) eqn:E; [|done].
  apply Qle_bool_iff in E. exfalso. by eapply Qlt_not_le.
Qed.

Lemma launch_throws (a b a' b' : Q) (this : RandomActionExecutor) :
  minPeriod this = a → maxPeriod this = b → (a < 0 ∨ b < 0 ∨ b <= a)%Q →
  ∃ thrown, launch a' b' this = inl thrown.
Proof.
  intros <- <- Hbad. unfold launch.
  assert (Qltb (minPeriod this) 0 || Qltb (maxPeriod this) 0
          || Qle_bool (maxPeriod this) (minPeriod this) = true) as ->; [|by eexists].
  destruct Hbad as [H|[H|H]].
  - by rewrite (Qltb_true _ _ H).
  - rewrite (Qltb_true _ _ H). by rewrite orb_true_r.
  - apply Qle_bool_iff in H. rewrite H. by rewrite orb_true_r.
Qed.

Lemma executor_stuck (a b : Q) (cs : list ExecutorCall) (this : RandomActionExecutor) :
  minPeriod this = a → maxPeriod this = b → (a < 0 ∨ b < 0 ∨ b <= a)%Q →
  minPeriod (executor_run cs this) = a
  ∧ maxPeriod (executor_run cs this) = b
  ∧ (running this = false ∨ Stop ∈ cs → running (executor_run cs this) = false).
Proof.
  revert this. induction cs as [|c cs IH]; intros this Ha Hb Hbad.
  - split_and!; [done..|]. intros [?|H]; [done|]. by apply not_elem_of_nil in H.
  - unfold executor_run. simpl. fold (executor_run cs (executor_step this c)).
    destruct c as [a' b'|]; simpl.
    + destruct (launch_throws a b a' b' this Ha Hb Hbad) as [thrown ->].
      destruct (IH this Ha Hb Hbad) as (? & ? & Hr). split_and!; [done..|].
      intros [?|[[=]|?]%elem_of_cons]; apply Hr; auto.
    + destruct (IH (stop this)) as (? & ? & Hr); [done..|]. split_and!; [done..|].
      intros _. apply Hr. by left.
Qed.

(** X21. [launch] tests the periods that are stored, not the ones it is
    given. So the first [launch] of a new executor goes through with any
    arguments and stores them unchecked; and once periods are stored that the
    test refuses (one negative, or the minimum not below the maximum), every
    later [launch] throws, whatever its arguments: after any calls of
    [launch] and [stop] the stored periods are still the refused ones, and a
    [stop] among them leaves the executor stopped for good. *)
Theorem launch_checks_the_stored_periods (a b : Q) (cs : list ExecutorCall) :
  launch a b new_RandomActionExecutor = inr (mkExecutor true a b)
  ∧ ((a < 0 ∨ b < 0 ∨ b <= a)%Q →
     let this := executor_run cs (mkExecutor true a b) in
     minPeriod this = a ∧ maxPeriod this = b
     ∧ (∀ a' b', ∃ thrown, launch a' b' this = inl thrown)
     ∧ (Stop ∈ cs → running this = false)).
Proof.
  split; [done|]. intros Hbad this.
  destruct (executor_stuck a b cs (mkExecutor true a b) eq_refl eq_refl Hbad)
    as (Ha & Hb & Hr).
  split_and!; [done..| |auto].
  intros a' b'. by eapply launch_throws.
Qed.

Lemma launch_checks_the_stored_periods_witness :
  ∃ thrown, launch 1 5 (executor_run [Stop; Launch 2 3] (mkExecutor true 10 2)) = inl thrown.
Proof.
  destruct (launch_checks_the_stored_periods 10 2 [Stop; Launch 2 3]) as [_ H].
  destruct H as (_ & _ & H & _).
  - right. right. vm_compute. discriminate.
  - apply H.
Defined.

(** * The answers on sample calls *)

Lemma success_iff_draw_and_indices_witness :
  (perform half (RemoveTodo 0 3) world_abcd).1 = Success.
Proof.
  apply (success_iff_draw_and_indices half (RemoveTodo 0 3) world_abcd).
  split_and!; reflexivity.
Defined.

Lemma rejected_400_iff_index_out_of_range_witness :
  (perform half (RemoveTodo 0 4) world_abcd).1 = Failure (mkError 400 "index out of bound").
Proof.
  apply (rejected_400_iff_index_out_of_range half (RemoveTodo 0 4) world_abcd).
  split; reflexivity.
Defined.

Lemma error_envelopes_witness :
  (perform three_quarters (RemoveTodo 0 3) world_flaky).1
  = Failure (mkError 500 "internal error")
  ∧ (perform half (RemoveTodo 0 3) world_loud).1 = Failure (mkError 500 "internal error")
  ∧ (perform half (CreateList "home") world_loud).1 = Pending.
Proof.
  split_and!.
  - apply (error_envelopes three_quarters (RemoveTodo 0 3) world_flaky).
    left. reflexivity.
  - apply (error_envelopes half (RemoveTodo 0 3) world_loud).
    right. right. split_and!; [reflexivity..|discriminate].
  - apply (error_envelopes half (CreateList "home") world_loud).
    split_and!; [reflexivity|by eexists|right; reflexivity].
Defined.
